(** * Dependency management for tools: the resolution chain and the
      dependency cache of [lib/galaxy/tools/deps/__init__.py].

    The development embeds [DependencyManager] and
    [CachedDependencyManager] as Rocq functions.  Resolvers are external
    collaborators: a resolver is a record of the methods the manager calls,
    the optional ones ([resolve_all], [get_targets], [install_all]) being
    [option]al fields, which is what the [hasattr] tests of the source
    inspect.  Calls made to resolvers and to the file system are recorded
    in an event list, so that statements of the form "is never consulted"
    can be made about the code. *)

From Stdlib Require Import ZArith String Ascii List Lia Bool.
From Stdlib Require Import OrdersEx.
From stdpp Require Import base list sorting strings.
From stdpp Require gmap.

Local Open Scope string_scope.
Local Open Scope list_scope.

#[local] Set Warnings "-clear-no-such-hyp".

(** ** Data model *)

(** [ToolRequirement]: compared and hashed by its fields, so it is a plain
    record with decidable equality. *)
Record ToolRequirement : Type := mkRequirement {
  req_name : string;
  req_version : option string;
  req_type : string
}.

#[global] Instance ToolRequirement_eq_dec : EqDecision ToolRequirement.
Proof. solve_decision. Defined.

(** A dependency is either the [NullDependency] sentinel or a resolved
    dependency; [isinstance(dependency, NullDependency)] is the test on the
    constructor. *)
Inductive Dependency : Type :=
| NullDependency (name : string) (version : option string)
| ResolvedDependency (name : string) (version : option string)
    (exact : bool) (dependency_type : string) (cacheable : bool)
    (resolver_msg : string).

#[global] Instance Dependency_eq_dec : EqDecision Dependency.
Proof. solve_decision. Defined.

Definition dep_name (d : Dependency) : string :=
  match d with
  | NullDependency n _ => n
  | ResolvedDependency n _ _ _ _ _ => n
  end.

Definition dep_version (d : Dependency) : option string :=
  match d with
  | NullDependency _ v => v
  | ResolvedDependency _ v _ _ _ _ => v
  end.

Definition dep_exact (d : Dependency) : bool :=
  match d with
  | NullDependency _ _ => false
  | ResolvedDependency _ _ e _ _ _ => e
  end.

(** [NullDependency.dependency_type] is [None]. *)
Definition dep_dependency_type (d : Dependency) : option string :=
  match d with
  | NullDependency _ _ => None
  | ResolvedDependency _ _ _ t _ _ => Some t
  end.

Definition dep_cacheable (d : Dependency) : bool :=
  match d with
  | NullDependency _ _ => false
  | ResolvedDependency _ _ _ _ c _ => c
  end.

Definition is_NullDependency (d : Dependency) : bool :=
  match d with
  | NullDependency _ _ => true
  | ResolvedDependency _ _ _ _ _ _ => false
  end.

(** The keyword arguments the manager reads ([index], [exact],
    [force_rebuild]); everything else is passed through to the resolvers
    untouched. *)
Record Kwds : Type := mkKwds {
  kw_index : option nat;
  kw_exact : bool;
  kw_force_rebuild : bool;
  kw_other : list (string * string)
}.

(** What [get_targets] hands to [install_all]; opaque to the manager. *)
Definition Targets : Type := list string.

(** A resolver.  [resolve] is mandatory; a falsy result of [resolve_all]
    ([False], [None], an empty list) is the empty list. *)
Record Resolver : Type := mkResolver {
  resolve : string -> option string -> string -> Kwds -> Dependency;
  resolve_all : option (list ToolRequirement -> Kwds -> list Dependency);
  get_targets : option (list ToolRequirement -> Targets);
  install_all_targets : option (Targets -> bool)
}.

(** Calls received by the resolvers, tagged with the position of the
    resolver in the chain. *)
Inductive Event : Type :=
| EvResolveAll (i : nat) (requirements : list ToolRequirement)
| EvResolve (i : nat) (name : string) (version : option string)
    (type : string)
| EvGetTargets (i : nat) (requirements : list ToolRequirement)
| EvInstallAll (i : nat) (targets : Targets)
| EvRmtree (path : string)
| EvBuildCache (dependency : Dependency) (path : string).

Inductive Exception : Type :=
| AssertionError
| OSError.

Inductive Outcome (A : Type) : Type :=
| Returned (a : A)
| Raised (e : Exception).
Arguments Returned {A} a.
Arguments Raised {A} e.

(** ** [OrderedDict] keyed by requirements *)

Abbreviation OrderedDict := (list (ToolRequirement * Dependency)) (only parsing).

Definition od_keys (m : OrderedDict) : list ToolRequirement := m.*1.
Definition od_values (m : OrderedDict) : list Dependency := m.*2.

Fixpoint od_get (k : ToolRequirement) (m : OrderedDict) : option Dependency :=
  match m with
  | [] => None
  | (k', v) :: m' => if decide (k = k') then Some v else od_get k m'
  end.

Definition od_mem (k : ToolRequirement) (m : OrderedDict) : bool :=
  match od_get k m with Some _ => true | None => false end.

(** [m[k] = v]: a present key keeps its position, a new key goes last. *)
Fixpoint od_set (k : ToolRequirement) (v : Dependency) (m : OrderedDict)
  : OrderedDict :=
  match m with
  | [] => [(k, v)]
  | (k', v') :: m' =>
      if decide (k = k') then (k', v) :: m' else (k', v') :: od_set k v m'
  end.

(** ** The resolution chain *)

(** [requirement.type in ['package', 'set_environment']] *)
Definition resolvable_type (t : string) : bool :=
  bool_decide (t = "package") || bool_decide (t = "set_environment").

(** Lines 140-145: the requirements kept for resolution. *)
Fixpoint resolvable_requirements (requirements : list ToolRequirement)
  : list ToolRequirement :=
  match requirements with
  | [] => []
  | q :: qs =>
      if resolvable_type (req_type q)
      then q :: resolvable_requirements qs
      else resolvable_requirements qs
  end.

(** Lines 168-179: one resolver is asked about every requirement that has
    no entry yet. *)
Fixpoint resolve_individually (kw : Kwds) (i : nat) (r : Resolver)
    (todo : list ToolRequirement) (rtd : OrderedDict)
  : OrderedDict * list Event :=
  match todo with
  | [] => (rtd, [])
  | q :: todo' =>
      if od_mem q rtd then resolve_individually kw i r todo' rtd
      else if resolvable_type (req_type q) then
        let dependency := resolve r (req_name q) (req_version q) (req_type q) kw in
        let rtd' :=
          if kw_exact kw && negb (dep_exact dependency) then rtd
          else if negb (is_NullDependency dependency)
               then od_set q dependency rtd
               else rtd in
        let '(m, tr) := resolve_individually kw i r todo' rtd' in
        (m, EvResolve i (req_name q) (req_version q) (req_type q) :: tr)
      else resolve_individually kw i r todo' rtd
  end.

(** Lines 161-162: the positional zip of a bulk answer. *)
Fixpoint zip_into (qs : list ToolRequirement) (ds : list Dependency)
    (rtd : OrderedDict) : OrderedDict :=
  match qs, ds with
  | q :: qs', d :: ds' => zip_into qs' ds' (od_set q d rtd)
  | _, _ => rtd
  end.

(** [index is not None and i != index] *)
Definition skipped_by_index (kw : Kwds) (i : nat) : bool :=
  match kw_index kw with
  | Some k => negb (i =? k)%nat
  | None => false
  end.

(** Lines 147-181: the loop over the resolvers, from position [i] on.  A
    [break] returns the mapping at once; a failed [assert] raises. *)
Fixpoint walk_resolvers (kw : Kwds) (resolvable : list ToolRequirement)
    (i : nat) (rs : list Resolver) (rtd : OrderedDict)
  : Outcome OrderedDict * list Event :=
  match rs with
  | [] => (Returned rtd, [])
  | r :: rs' =>
      if skipped_by_index kw i then walk_resolvers kw resolvable (S i) rs' rtd
      else if (length rtd =? length resolvable)%nat then (Returned rtd, [])
      else
        let all_unmet := (length rtd =? 0)%nat in
        let bulk :=
          if all_unmet
          then option_map (fun f => f resolvable kw) (resolve_all r)
          else None in
        let asked :=
          match bulk with
          | Some _ => [EvResolveAll i resolvable]
          | None => []
          end in
        match bulk with
        | Some (d :: ds) =>
            if (length (d :: ds) =? length resolvable)%nat
            then (Returned (zip_into resolvable (d :: ds) rtd), asked)
            else (Raised AssertionError, asked)
        | _ =>
            let '(rtd', tr) := resolve_individually kw i r resolvable rtd in
            let '(out, tr') := walk_resolvers kw resolvable (S i) rs' rtd' in
            (out, asked ++ tr ++ tr')
        end
  end.

(** [DependencyManager._requirements_to_dependencies_dict] *)
Definition _requirements_to_dependencies_dict (dependency_resolvers : list Resolver)
    (requirements : list ToolRequirement) (kw : Kwds)
  : Outcome OrderedDict * list Event :=
  walk_resolvers kw (resolvable_requirements requirements) 0
    dependency_resolvers [].

(** [DependencyManager.requirements_to_dependencies]: the same mapping
    (the copy of the summaries onto a tool instance is not modelled). *)
Definition requirements_to_dependencies (dependency_resolvers : list Resolver)
    (requirements : list ToolRequirement) (kw : Kwds)
  : Outcome OrderedDict * list Event :=
  _requirements_to_dependencies_dict dependency_resolvers requirements kw.

(** [DependencyManager.install_all], lines 121-132, from position [i]. *)
Fixpoint install_all_from (i : nat) (rs : list Resolver)
    (requirements : list ToolRequirement) : bool * list Event :=
  match rs with
  | [] => (false, [])
  | r :: rs' =>
      match get_targets r, install_all_targets r with
      | Some gt, Some inst =>
          let targets := gt requirements in
          let is_installed := inst targets in
          let ev := [EvGetTargets i requirements; EvInstallAll i targets] in
          if is_installed then (true, ev)
          else
            let '(b, tr) := install_all_from (S i) rs' requirements in
            (b, ev ++ tr)
      | _, _ => install_all_from (S i) rs' requirements
      end
  end.

Definition install_all (dependency_resolvers : list Resolver)
    (requirements : list ToolRequirement) : bool * list Event :=
  install_all_from 0 dependency_resolvers requirements.

(** ** The cache hash *)

(** The tuple [(dep.name, dep.version, dep.exact, dep.dependency_type)]. *)
Definition DepTuple : Type := string * option string * bool * option string.

Definition dep_tuple (d : Dependency) : DepTuple :=
  (dep_name d, dep_version d, dep_exact d, dep_dependency_type d).

(** Python's ordering of the tuples: component by component, strings by
    code point, [None] below every string, [False] below [True]. *)
Definition cmp_option {A} (cmp : A -> A -> comparison) (x y : option A)
  : comparison :=
  match x, y with
  | None, None => Eq
  | None, Some _ => Lt
  | Some _, None => Gt
  | Some a, Some b => cmp a b
  end.

Definition cmp_bool (x y : bool) : comparison :=
  match x, y with
  | false, true => Lt
  | true, false => Gt
  | _, _ => Eq
  end.

Definition cmp_pair {A B} (cmpA : A -> A -> comparison)
    (cmpB : B -> B -> comparison) (x y : A * B) : comparison :=
  match cmpA x.1 y.1 with
  | Eq => cmpB x.2 y.2
  | c => c
  end.

Definition cmp_tuple : DepTuple -> DepTuple -> comparison :=
  cmp_pair
    (cmp_pair (cmp_pair String_as_OT.compare (cmp_option String_as_OT.compare))
       cmp_bool)
    (cmp_option String_as_OT.compare).

Definition tuple_le (x y : DepTuple) : Prop := cmp_tuple x y <> Gt.

#[global] Instance tuple_le_dec : RelDecision tuple_le.
Proof. intros x y. unfold tuple_le. solve_decision. Defined.

(** [sorted(resolved_dependencies)] *)
Definition sorted (l : list DepTuple) : list DepTuple := merge_sort tuple_le l.

(** [json.dumps] with its defaults on a list of such tuples.  A character
    of a [string] is a code point below 256; everything outside the
    printable ASCII range, the quote and the backslash are escaped. *)
Definition hex_digit (n : N) : ascii :=
  ascii_of_N (if (n <? 10)%N then 48 + n else 87 + n).

Definition hex4 (n : N) : string :=
  String (hex_digit (n / 4096 mod 16))
    (String (hex_digit (n / 256 mod 16))
       (String (hex_digit (n / 16 mod 16))
          (String (hex_digit (n mod 16)) EmptyString))).

Definition json_escape_char (c : ascii) : string :=
  let n := N_of_ascii c in
  if (n =? 34)%N then "\" ++ String c EmptyString
  else if (n =? 92)%N then "\\"
  else if (n =? 8)%N then "\b"
  else if (n =? 12)%N then "\f"
  else if (n =? 10)%N then "\n"
  else if (n =? 13)%N then "\r"
  else if (n =? 9)%N then "\t"
  else if ((32 <=? n) && (n <=? 126))%N then String c EmptyString
  else "\u" ++ hex4 n.

Fixpoint json_escape (s : string) : string :=
  match s with
  | EmptyString => EmptyString
  | String c s' => json_escape_char c ++ json_escape s'
  end.

Definition json_string (s : string) : string :=
  String (ascii_of_N 34) (json_escape s ++ String (ascii_of_N 34) EmptyString).

Definition json_option_string (o : option string) : string :=
  match o with
  | None => "null"
  | Some s => json_string s
  end.

Definition json_bool (b : bool) : string := if b then "true" else "false".

Definition json_tuple (t : DepTuple) : string :=
  let '(n, v, e, ty) := t in
  "[" ++ json_string n ++ ", " ++ json_option_string v ++ ", "
      ++ json_bool e ++ ", " ++ json_option_string ty ++ "]".

Fixpoint json_join (items : list string) : string :=
  match items with
  | [] => EmptyString
  | [x] => x
  | x :: rest => x ++ ", " ++ json_join rest
  end.

Definition json_dumps (l : list DepTuple) : string :=
  "[" ++ json_join (json_tuple <$> l) ++ "]".

(** *** SHA-1 on 32-bit words held in [Z] *)

Local Open Scope Z_scope.

Definition wrap32 (x : Z) : Z := x mod 4294967296.

Definition rotl (n x : Z) : Z :=
  wrap32 (Z.lor (Z.shiftl x n) (Z.shiftr x (32 - n))).

Definition bytes_of_string (s : string) : list Z :=
  (fun c => Z.of_N (N_of_ascii c)) <$> list_ascii_of_string s.

(** The 64-bit big-endian length field. *)
Definition be_bytes8 (x : Z) : list Z :=
  (fun k => Z.shiftr x (8 * k) mod 256) <$> [7; 6; 5; 4; 3; 2; 1; 0].

Definition sha1_pad (msg : list Z) : list Z :=
  let l := Z.of_nat (length msg) in
  msg ++ [128] ++ repeat 0 (Z.to_nat ((55 - l) mod 64)) ++ be_bytes8 (8 * l).

Fixpoint words_of_bytes (bs : list Z) : list Z :=
  match bs with
  | a :: b :: c :: d :: rest =>
      (a * 16777216 + b * 65536 + c * 256 + d) :: words_of_bytes rest
  | _ => []
  end.

Fixpoint blocks_of_words (fuel : nat) (ws : list Z) : list (list Z) :=
  match fuel, ws with
  | S fuel', _ :: _ => take 16 ws :: blocks_of_words fuel' (drop 16 ws)
  | _, _ => []
  end.

(** Message schedule, kept with the most recent word first. *)
Fixpoint extend_schedule (n : nat) (rev_w : list Z) : list Z :=
  match n with
  | O => rev_w
  | S n' =>
      let g k := nth k rev_w 0 in
      extend_schedule n'
        (rotl 1 (Z.lxor (Z.lxor (g 2%nat) (g 7%nat))
                        (Z.lxor (g 13%nat) (g 15%nat))) :: rev_w)
  end.

Record Sha1State : Type := mkSha1 { h0 : Z; h1 : Z; h2 : Z; h3 : Z; h4 : Z }.

Definition sha1_round (t : nat) (w : Z) (s : Sha1State) : Sha1State :=
  let '(mkSha1 a b c d e) := s in
  let '(f, k) :=
    if (t <? 20)%nat then
      (Z.lor (Z.land b c) (Z.land (Z.lxor b 4294967295) d), 0x5A827999)
    else if (t <? 40)%nat then
      (Z.lxor (Z.lxor b c) d, 0x6ED9EBA1)
    else if (t <? 60)%nat then
      (Z.lor (Z.lor (Z.land b c) (Z.land b d)) (Z.land c d), 0x8F1BBCDC)
    else
      (Z.lxor (Z.lxor b c) d, 0xCA62C1D6) in
  mkSha1 (wrap32 (rotl 5 a + f + e + k + w)) a (rotl 30 b) c d.

Fixpoint sha1_rounds (t : nat) (ws : list Z) (s : Sha1State) : Sha1State :=
  match ws with
  | [] => s
  | w :: ws' => sha1_rounds (S t) ws' (sha1_round t w s)
  end.

Definition sha1_block (s : Sha1State) (block : list Z) : Sha1State :=
  let w := rev (extend_schedule 64 (rev block)) in
  let s' := sha1_rounds 0 w s in
  mkSha1 (wrap32 (h0 s + h0 s')) (wrap32 (h1 s + h1 s'))
    (wrap32 (h2 s + h2 s')) (wrap32 (h3 s + h3 s')) (wrap32 (h4 s + h4 s')).

Definition sha1_init : Sha1State :=
  mkSha1 0x67452301 0xEFCDAB89 0x98BADCFE 0x10325476 0xC3D2E1F0.

Definition sha1 (msg : list Z) : Sha1State :=
  let ws := words_of_bytes (sha1_pad msg) in
  fold_left sha1_block (blocks_of_words (length ws) ws) sha1_init.

Definition hex8 (w : Z) : string :=
  string_of_list_ascii
    ((fun k => hex_digit (Z.to_N (Z.shiftr w (4 * k) mod 16)))
       <$> [7; 6; 5; 4; 3; 2; 1; 0]).

Definition sha1_hexdigest (s : string) : string :=
  let st := sha1 (bytes_of_string s) in
  (hex8 (h0 st) ++ hex8 (h1 st) ++ hex8 (h2 st) ++ hex8 (h3 st)
     ++ hex8 (h4 st))%string.

Local Close Scope Z_scope.

(** Modelled from the spec: [galaxy.util.hash_util.new_secure_hash] is not
    among the sources; the spec has it compute a one-way secure hash of the
    serialized text, and the hexadecimal SHA-1 digest is that hash. *)
Definition new_secure_hash (text : string) : string := sha1_hexdigest text.

(** [CachedDependencyManager.hash_dependencies], lines 263-267. *)
Definition hash_dependencies (resolved_dependencies : list Dependency)
  : string :=
  let tuples := dep_tuple <$> resolved_dependencies in
  let hash_str := json_dumps (sorted tuples) in
  substring 0 8 (new_secure_hash hash_str).

(** ** The cache directory *)

(** The file system and the materialization of a dependency are external:
    [os.path.exists], [shutil.rmtree], [dep.build_cache] and
    [os.path.abspath (os.path.join ...)].  A call that raises returns the
    exception next to the state it leaves behind. *)
Class FileSystem (FS : Type) : Type := {
  path_exists : string -> FS -> bool;
  rmtree : string -> FS -> FS * option Exception;
  dep_build_cache : Dependency -> string -> FS -> FS * option Exception;
  abspath_join : string -> string -> string
}.

(** [CachedDependencyManager.get_hashed_dependencies_path] *)
Definition get_hashed_dependencies_path `{FileSystem FS}
    (tool_dependency_cache_dir : string)
    (resolved_dependencies : list Dependency) : string :=
  let req_hashes := hash_dependencies resolved_dependencies in
  abspath_join tool_dependency_cache_dir req_hashes.

(** [[dep for dep in resolved_dependencies.values() if dep.cacheable]] *)
Definition cacheable_dependencies (resolved_dependencies : OrderedDict)
  : list Dependency :=
  List.filter dep_cacheable (od_values resolved_dependencies).

(** Line 242: [[dep.build_cache(dir) for dep in cacheable_dependencies]] *)
Fixpoint build_each `{FileSystem FS} (deps : list Dependency) (dir : string)
    (fs : FS) : Outcome unit * FS * list Event :=
  match deps with
  | [] => (Returned tt, fs, [])
  | dep :: deps' =>
      match dep_build_cache dep dir fs with
      | (fs', Some e) => (Raised e, fs', [EvBuildCache dep dir])
      | (fs', None) =>
          let '(out, fs'', tr) := build_each deps' dir fs' in
          (out, fs'', EvBuildCache dep dir :: tr)
      end
  end.

(** [CachedDependencyManager.build_cache], lines 228-242. *)
Definition build_cache `{FileSystem FS} (tool_dependency_cache_dir : string)
    (dependency_resolvers : list Resolver)
    (requirements : list ToolRequirement) (kw : Kwds) (fs : FS)
  : Outcome unit * FS * list Event :=
  match requirements_to_dependencies dependency_resolvers requirements kw with
  | (Raised e, tr) => (Raised e, fs, tr)
  | (Returned resolved_dependencies, tr) =>
      let deps := cacheable_dependencies resolved_dependencies in
      let hashed_dependencies_dir :=
        get_hashed_dependencies_path tool_dependency_cache_dir deps in
      if path_exists hashed_dependencies_dir fs then
        if kw_force_rebuild kw then
          match rmtree hashed_dependencies_dir fs with
          | (fs', Some e) => (Raised e, fs', tr ++ [EvRmtree hashed_dependencies_dir])
          | (fs', None) =>
              let '(out, fs'', tr') := build_each deps hashed_dependencies_dir fs' in
              (out, fs'', tr ++ EvRmtree hashed_dependencies_dir :: tr')
          end
        else (Returned tt, fs, tr)
      else
        let '(out, fs', tr') := build_each deps hashed_dependencies_dir fs in
        (out, fs', tr ++ tr')
  end.

(** A file system for the examples: the cache directories that exist, each
    with the dependencies materialized into it, oldest first. *)
Definition DirTable : Type := list (string * list Dependency).

Fixpoint dir_lookup (p : string) (t : DirTable) : option (list Dependency) :=
  match t with
  | [] => None
  | (p', c) :: t' => if decide (p = p') then Some c else dir_lookup p t'
  end.

Fixpoint dir_remove (p : string) (t : DirTable) : DirTable :=
  match t with
  | [] => []
  | (p', c) :: t' =>
      if decide (p = p') then dir_remove p t' else (p', c) :: dir_remove p t'
  end.

Definition dir_add (d : Dependency) (p : string) (t : DirTable) : DirTable :=
  match dir_lookup p t with
  | Some c => (p, c ++ [d]) :: dir_remove p t
  | None => (p, [d]) :: t
  end.

#[global] Instance DirTable_fs : FileSystem DirTable := {
  path_exists p t := match dir_lookup p t with Some _ => true | None => false end;
  rmtree p t := (dir_remove p t, None);
  dep_build_cache d p t := (dir_add d p t, None);
  abspath_join dir h := (dir ++ "/" ++ h)%string
}.

(** ** Lookups and activation commands *)

(** [DependencyManager.find_dep], lines 186-193: the requirement is
    resolved alone; the first value of the mapping is returned, or the
    sentinel when the mapping is empty. *)
Definition find_dep (dependency_resolvers : list Resolver)
    (name : string) (version : option string) (type : string) (kw : Kwds)
  : Outcome Dependency * list Event :=
  let requirement := mkRequirement name version type in
  match _requirements_to_dependencies_dict dependency_resolvers [requirement] kw with
  | (Raised e, tr) => (Raised e, tr)
  | (Returned dep_dict, tr) =>
      if (0 <? length dep_dict)%nat
      then (Returned (hd (NullDependency name version) (od_values dep_dict)), tr)
      else (Returned (NullDependency name version), tr)
  end.

(** The methods of a dependency that produce text are external.
    [dep.shell_commands(requirement)] reads the cache path of the
    dependency, which is unset until [dep.set_cache_path(path)] binds it;
    the binding is the [option] argument. *)
Class DependencyMethods : Type := {
  dep_shell_commands : Dependency → option string → ToolRequirement → list string
}.

(** [DependencyManager.dependency_shell_commands], lines 104-106. *)
Definition dependency_shell_commands `{DependencyMethods}
    (dependency_resolvers : list Resolver)
    (requirements : list ToolRequirement) (kw : Kwds)
  : Outcome (list (list string)) * list Event :=
  match requirements_to_dependencies dependency_resolvers requirements kw with
  | (Raised e, tr) => (Raised e, tr)
  | (Returned requirement_to_dependency, tr) =>
      (Returned ((λ item, dep_shell_commands item.2 None item.1)
                   <$> requirement_to_dependency), tr)
  end.

(** [CachedDependencyManager.dependency_shell_commands], lines 244-261.
    [precache_dependencies] is [self.extra_config['precache_dependencies']].
    The cacheable dependencies are the very objects held by the mapping, so
    the cache path bound on them at line 259 is the one their commands are
    generated with at line 260. *)
Definition cached_dependency_shell_commands `{FileSystem FS} `{DependencyMethods}
    (tool_dependency_cache_dir : string) (precache_dependencies : bool)
    (dependency_resolvers : list Resolver)
    (requirements : list ToolRequirement) (kw : Kwds) (fs : FS)
  : Outcome (list (list string)) * FS * list Event :=
  match requirements_to_dependencies dependency_resolvers requirements kw with
  | (Raised e, tr) => (Raised e, fs, tr)
  | (Returned resolved_dependencies, tr) =>
      let deps := cacheable_dependencies resolved_dependencies in
      let hashed_dependencies_dir :=
        get_hashed_dependencies_path tool_dependency_cache_dir deps in
      let '(built, fs1, tr1) :=
        if negb (path_exists hashed_dependencies_dir fs) && precache_dependencies
        then build_cache tool_dependency_cache_dir dependency_resolvers
               requirements kw fs
        else (Returned tt, fs, []) in
      match built with
      | Raised e => (Raised e, fs1, tr ++ tr1)
      | Returned _ =>
          let cache_path :=
            if path_exists hashed_dependencies_dir fs1
            then Some hashed_dependencies_dir else None in
          (Returned
             ((λ item,
                 dep_shell_commands item.2
                   (if dep_cacheable item.2 then cache_path else None) item.1)
                <$> resolved_dependencies),
           fs1, tr ++ tr1)
      end
  end.

(** [NullDependencyManager], lines 66-76. *)
Module NullDependencyManager.

Definition uses_tool_shed_dependencies : bool := false.

Definition dependency_shell_commands (requirements : list ToolRequirement)
    (kw : Kwds) : list (list string) := [].

Definition find_dep (name : string) (version : option string) (type : string)
    (kw : Kwds) : Dependency := NullDependency name version.

End NullDependencyManager.

(** ** Choosing the manager *)

(** The values a configuration holds, with Python's truth value. *)
Inductive PyValue : Type :=
| PyNone
| PyBool (b : bool)
| PyInt (n : Z)
| PyStr (s : string)
| PyList (l : list string).

Definition truthy (v : PyValue) : bool :=
  match v with
  | PyNone => false
  | PyBool b => b
  | PyInt n => negb (n =? 0)%Z
  | PyStr s => negb (String.eqb s EmptyString)
  | PyList l => match l with [] => false | _ :: _ => true end
  end.

(** The configuration object: its attributes, and the dictionary held by
    its attribute [config_dict] when it has one. *)
Record Config : Type := mkConfig {
  config_attrs : gmap.gmap string PyValue;
  config_dict : option (gmap.gmap string PyValue)
}.

(** [EXTRA_CONFIG_KWDS], lines 28-37.  [DEFAULT_ENSURE_CHANNELS] is
    imported from the conda resolver and is taken as a parameter. *)
Definition EXTRA_CONFIG_KWDS (DEFAULT_ENSURE_CHANNELS : PyValue)
  : list (string * PyValue) :=
  [("conda_prefix", PyNone);
   ("conda_exec", PyNone);
   ("conda_debug", PyNone);
   ("conda_ensure_channels", DEFAULT_ENSURE_CHANNELS);
   ("conda_auto_install", PyBool false);
   ("conda_auto_init", PyBool false);
   ("conda_copy_dependencies", PyBool false);
   ("precache_dependencies", PyBool true)].

(** Lines 49-53: the attribute, else the entry of [config_dict], else the
    default. *)
Definition config_value (config : Config) (key : string)
    (default_value : PyValue) : PyValue :=
  match config_attrs config !! key with
  | Some value => value
  | None =>
      match config_dict config with
      | Some d =>
          match d !! key with
          | Some value => value
          | None => default_value
          end
      | None => default_value
      end
  end.

(** Reading an attribute the configuration does not have. *)
Inductive ConfigError : Type :=
| AttributeError (attribute : string).

(** The constructor [build_dependency_manager] calls, with its keyword
    arguments. *)
Inductive ManagerCall : Type :=
| NullDependencyManager_new
| DependencyManager_new (dependency_manager_kwds : gmap.gmap string PyValue)
| CachedDependencyManager_new (dependency_manager_kwds : gmap.gmap string PyValue).

(** [build_dependency_manager], lines 42-63. *)
Definition build_dependency_manager (DEFAULT_ENSURE_CHANNELS : PyValue)
    (config : Config) : ConfigError + ManagerCall :=
  if truthy (default (PyBool false) (config_attrs config !! "use_tool_dependencies"))
  then
    match config_attrs config !! "tool_dependency_dir" with
    | None => inl (AttributeError "tool_dependency_dir")
    | Some base_path =>
        match config_attrs config !! "dependency_resolvers_config_file" with
        | None => inl (AttributeError "dependency_resolvers_config_file")
        | Some conf_file =>
            let kwds0 : gmap.gmap string PyValue :=
              <["conf_file" := conf_file]>
                (<["default_base_path" := base_path]> ∅) in
            let dependency_manager_kwds :=
              foldl (λ kwds item,
                       <[item.1 := config_value config item.1 item.2]> kwds)
                kwds0 (EXTRA_CONFIG_KWDS DEFAULT_ENSURE_CHANNELS) in
            match config_attrs config !! "use_cached_dependency_manager" with
            | None => inl (AttributeError "use_cached_dependency_manager")
            | Some cached =>
                if truthy cached then
                  match config_attrs config !! "tool_dependency_cache_dir" with
                  | None => inl (AttributeError "tool_dependency_cache_dir")
                  | Some cache_dir =>
                      inr (CachedDependencyManager_new
                             (<["tool_dependency_cache_dir" := cache_dir]>
                                dependency_manager_kwds))
                  end
                else inr (DependencyManager_new dependency_manager_kwds)
            end
        end
    end
  else inr NullDependencyManager_new.

(** ** Example data *)

Module Ex.

Definition kwds : Kwds := mkKwds None false false [].
Definition kwds_exact : Kwds := mkKwds None true false [].

Definition samtools : ToolRequirement :=
  mkRequirement "samtools" (Some "1.3") "package".
Definition bwa : ToolRequirement :=
  mkRequirement "bwa" (Some "0.7") "package".
Definition binary : ToolRequirement :=
  mkRequirement "blast" None "binary".

(** A resolver that knows one package and answers through [resolve]. *)
Definition knows (n : string) (exact : bool) (ty : string) : Resolver :=
  mkResolver
    (λ name version type kw,
       if decide (name = n)
       then ResolvedDependency name version exact ty true "found"
       else NullDependency name version)
    None None None.

Definition conda_dep (q : ToolRequirement) : Dependency :=
  ResolvedDependency (req_name q) (req_version q) true "conda" true "found".

(** A resolver whose [resolve_all] answers every requirement. *)
Definition bulk : Resolver :=
  mkResolver (λ name version type kw, NullDependency name version)
    (Some (λ qs kw, conda_dep <$> qs)) None None.

(** A resolver whose [resolve_all] answers with one dependency only. *)
Definition short_bulk : Resolver :=
  mkResolver (λ name version type kw, NullDependency name version)
    (Some (λ qs kw, [conda_dep samtools])) None None.

(** A resolver whose [resolve_all] gives nothing, and whose [resolve]
    knows every package. *)
Definition empty_bulk : Resolver :=
  mkResolver
    (λ name version type kw,
       ResolvedDependency name version true "conda" true "found")
    (Some (λ qs kw, [])) None None.

(** Resolvers with the installation pair; the installation succeeds or
    fails as told. *)
Definition installer (succeeds : bool) : Resolver :=
  mkResolver (λ name version type kw, NullDependency name version) None
    (Some (λ qs, req_name <$> qs)) (Some (λ _, succeeds)).

Definition non_cacheable : Dependency :=
  ResolvedDependency "samtools" (Some "1.3") true "galaxy_package" false "found".

Definition inexact_dep (q : ToolRequirement) : Dependency :=
  ResolvedDependency (req_name q) (req_version q) false "galaxy_package" true
    "found".

(** A resolver whose [resolve_all] answers every requirement, inexactly. *)
Definition inexact_bulk : Resolver :=
  mkResolver (λ name version type kw, NullDependency name version)
    (Some (λ qs kw, inexact_dep <$> qs)) None None.

(** A resolver whose [resolve_all] answers with one inexact dependency
    only. *)
Definition inexact_short_bulk : Resolver :=
  mkResolver (λ name version type kw, NullDependency name version)
    (Some (λ qs kw, [inexact_dep samtools])) None None.

(** A resolver that knows one package, with a dependency that cannot be
    cached. *)
Definition knows_uncached (n : string) : Resolver :=
  mkResolver
    (λ name version type kw,
       if decide (name = n)
       then ResolvedDependency name version true "galaxy_package" false "found"
       else NullDependency name version)
    None None None.

End Ex.

(** A configuration whose attribute [conda_prefix] is set to [None], with
    other values under [config_dict]. *)
Definition example_config : Config :=
  mkConfig
    (<["use_tool_dependencies" := PyBool true]>
       (<["tool_dependency_dir" := PyStr "/deps"]>
          (<["dependency_resolvers_config_file" := PyNone]>
             (<["use_cached_dependency_manager" := PyBool false]>
                (<["conda_prefix" := PyNone]> ∅)))))
    (Some (<["conda_prefix" := PyStr "/conda"]>
             (<["conda_debug" := PyBool true]> ∅))).

(** The same configuration with the cached manager switched on. *)
Definition example_cached_config : Config :=
  mkConfig
    (<["use_cached_dependency_manager" := PyStr "yes"]>
       (<["tool_dependency_cache_dir" := PyStr "/cache"]>
          (config_attrs example_config)))
    None.

(** Activation commands for the examples: the environment file of the
    cache directory when one is bound, of the package otherwise. *)
#[global] Instance env_sh_commands : DependencyMethods := {
  dep_shell_commands d cache_path q :=
    match cache_path with
    | Some p => [("source " ++ p ++ "/env.sh")%string]
    | None => [("source " ++ dep_name d ++ "/env.sh")%string]
    end
}.

(** ** Vocabulary of the statements *)

(** The answer of a single [resolve] for a requirement. *)
Definition answer (kw : Kwds) (r : Resolver) (q : ToolRequirement) : Dependency :=
  resolve r (req_name q) (req_version q) (req_type q) kw.

(** An answer is kept when it passes the [exact] filter and is not the
    sentinel. *)
Definition accepted (kw : Kwds) (d : Dependency) : bool :=
  negb (kw_exact kw && negb (dep_exact d)) && negb (is_NullDependency d).

Definition single_answer (kw : Kwds) (r : Resolver) (q : ToolRequirement)
  : option Dependency :=
  if resolvable_type (req_type q) && accepted kw (answer kw r q)
  then Some (answer kw r q) else None.

Definition ev_resolve (i : nat) (q : ToolRequirement) : Event :=
  EvResolve i (req_name q) (req_version q) (req_type q).

(** What a resolver can have contributed to the mapping: the accepted
    answer of its [resolve], or a member of its bulk answer. *)
Definition from_resolver (kw : Kwds) (resolvable : list ToolRequirement)
    (r : Resolver) (e : ToolRequirement * Dependency) : Prop :=
  single_answer kw r e.1 = Some e.2 ∨
  ∃ bulk, resolve_all r = Some bulk ∧ e.2 ∈ bulk resolvable kw.

(** The bulk answer of lines 156-158, when it is asked for. *)
Definition bulk_answer (kw : Kwds) (resolvable : list ToolRequirement)
    (r : Resolver) (rtd : OrderedDict) : option (list Dependency) :=
  if (length rtd =? 0)%nat
  then option_map (λ f, f resolvable kw) (resolve_all r)
  else None.

Definition asked_in_bulk (i : nat) (resolvable : list ToolRequirement)
    (bulk : option (list Dependency)) : list Event :=
  match bulk with
  | Some _ => [EvResolveAll i resolvable]
  | None => []
  end.

(** The position in the chain of the resolver an event was sent to. *)
Definition ev_index (e : Event) : option nat :=
  match e with
  | EvResolveAll i _ | EvResolve i _ _ _ | EvGetTargets i _
  | EvInstallAll i _ => Some i
  | EvRmtree _ | EvBuildCache _ _ => None
  end.

(** An event hands requirement [A] to a resolver. *)
Definition consults (A : ToolRequirement) (e : Event) : Prop :=
  match e with
  | EvResolveAll _ qs => A ∈ qs
  | EvResolve _ n v t => A = mkRequirement n v t
  | _ => False
  end.

(** The calls of a walk from position [i] with mapping [rtd]: a bulk call,
    made only while the mapping is empty, or a [resolve] for a resolvable
    requirement that has no entry in [rtd]. *)
Definition walk_event (resolvable : list ToolRequirement) (i : nat)
    (rtd : OrderedDict) (e : Event) : Prop :=
  ∃ j, (i ≤ j)%nat ∧ ev_index e = Some j ∧
    ((e = EvResolveAll j resolvable ∧ rtd = []) ∨
     (∃ q, e = ev_resolve j q ∧ q ∈ resolvable ∧ (q ∉ od_keys rtd)
           ∧ resolvable_type (req_type q) = true)).

(** A resolver that gives no bulk answer: it has no [resolve_all], or its
    [resolve_all] answers nothing.  The walk can only raise through a bulk
    answer. *)
Definition no_bulk_answer (kw : Kwds) (resolvable : list ToolRequirement)
    (r : Resolver) : Prop :=
  match resolve_all r with
  | Some f => f resolvable kw = []
  | None => True
  end.



(** The first resolver of the chain, among those the [index] option lets
    through, whose single answer for [q] is kept. *)
Fixpoint first_answer (kw : Kwds) (i : nat) (rs : list Resolver)
    (q : ToolRequirement) : option Dependency :=
  match rs with
  | [] => None
  | r :: rs' =>
      if skipped_by_index kw i then first_answer kw (S i) rs' q
      else match single_answer kw r q with
           | Some d => Some d
           | None => first_answer kw (S i) rs' q
           end
  end.

(** What the installation with a resolver gives, for a resolver that has
    both [get_targets] and [install_all]. *)
Definition installs (r : Resolver) (requirements : list ToolRequirement)
  : option bool :=
  match get_targets r, install_all_targets r with
  | Some gt, Some inst => Some (inst (gt requirements))
  | _, _ => None
  end.

(** The reading of C2: the outcome of the first resolver with the pair of
    capabilities decides, and no other resolver is tried. *)
Fixpoint install_all_first_capable (rs : list Resolver)
    (requirements : list ToolRequirement) : bool :=
  match rs with
  | [] => false
  | r :: rs' =>
      match installs r requirements with
      | Some b => b
      | None => install_all_first_capable rs' requirements
      end
  end.

(** The value of the last pair of [l] whose key is [key]. *)
Fixpoint last_binding (key : string) (l : list (string * PyValue))
  : option PyValue :=
  match l with
  | [] => None
  | item :: l' =>
      match last_binding key l' with
      | Some v => Some v
      | None => if decide (key = item.1) then Some item.2 else None
      end
  end.

(** A three-way comparison that decides equality and is a strict order. *)
Class LawfulCmp {A} (cmp : A → A → comparison) : Prop := {
  cmp_eq x y : cmp x y = Eq ↔ x = y;
  cmp_opp x y : cmp y x = CompOpp (cmp x y);
  cmp_lt_trans x y z : cmp x y = Lt → cmp y z = Lt → cmp x z = Lt
}.

(** * Properties *)

(** ** The ordered dictionary *)

Lemma od_get_None k (m : OrderedDict) : od_get k m = None ↔ k ∉ od_keys m.
Proof.
  unfold od_keys. induction m as [|[k' v] m IH]; simpl.
  - split; [intros _; apply not_elem_of_nil | done].
  - rewrite not_elem_of_cons. case_decide; [naive_solver|].
    rewrite IH. naive_solver.
Qed.

Lemma od_get_Some k (m : OrderedDict) d : od_get k m = Some d → k ∈ od_keys m.
Proof.
  intros H. destruct (decide (k ∈ od_keys m)) as [|Hn]; [done|].
  apply od_get_None in Hn. congruence.
Qed.

Lemma od_mem_true k (m : OrderedDict) : od_mem k m = true ↔ k ∈ od_keys m.
Proof.
  unfold od_mem. destruct (od_get k m) eqn:E.
  - split; [intros _; by eapply od_get_Some | done].
  - split; [done|]. intros Hin. by apply od_get_None in E.
Qed.

Lemma od_mem_false k (m : OrderedDict) : od_mem k m = false ↔ k ∉ od_keys m.
Proof. rewrite <- od_mem_true. destruct (od_mem k m); naive_solver. Qed.

Lemma od_set_absent k v (m : OrderedDict) :
  k ∉ od_keys m → od_set k v m = m ++ [(k, v)].
Proof.
  unfold od_keys. induction m as [|[k' v'] m IH]; simpl; [done|].
  rewrite not_elem_of_cons. intros [Hne Hn].
  case_decide; [done|]. by rewrite IH.
Qed.

Lemma od_set_present k v (m : OrderedDict) :
  k ∈ od_keys m → od_keys (od_set k v m) = od_keys m.
Proof.
  unfold od_keys. induction m as [|[k' v'] m IH]; simpl.
  - by intros ?%elem_of_nil.
  - intros Hin. case_decide; [done|]. simpl. f_equal. apply IH.
    apply elem_of_cons in Hin. naive_solver.
Qed.

Lemma od_get_set k k' v (m : OrderedDict) :
  od_get k' (od_set k v m) = if decide (k' = k) then Some v else od_get k' m.
Proof.
  induction m as [|[k0 v0] m IH]; simpl.
  - repeat case_decide; congruence.
  - repeat (case_decide; simpl; subst); try congruence.
Qed.

Lemma od_get_app_l k (m b : OrderedDict) d :
  od_get k m = Some d → od_get k (m ++ b) = Some d.
Proof.
  induction m as [|[k0 v0] m IH]; simpl; [done|].
  case_decide; auto.
Qed.

Lemma od_get_app_r k (m b : OrderedDict) :
  od_get k m = None → od_get k (m ++ b) = od_get k b.
Proof.
  induction m as [|[k0 v0] m IH]; simpl; [done|].
  case_decide; [done | auto].
Qed.

Lemma od_keys_app (m b : OrderedDict) : od_keys (m ++ b) = od_keys m ++ od_keys b.
Proof. unfold od_keys. by rewrite fmap_app. Qed.

(** ** One resolver asked about each open requirement *)

(** The loop body of [resolve_individually], with the two filters read as
    [accepted]. *)
Lemma resolve_individually_cons kw i r q todo rtd :
  resolve_individually kw i r (q :: todo) rtd =
  if od_mem q rtd || negb (resolvable_type (req_type q))
  then resolve_individually kw i r todo rtd
  else
    let '(m, tr) :=
      resolve_individually kw i r todo
        (if accepted kw (answer kw r q)
         then rtd ++ [(q, answer kw r q)] else rtd) in
    (m, ev_resolve i q :: tr).
Proof.
  cbn [resolve_individually]. destruct (od_mem q rtd) eqn:Hmem; [done|].
  destruct (resolvable_type (req_type q)); [|done]. cbn [orb negb].
  apply od_mem_false in Hmem. unfold accepted. fold (answer kw r q).
  destruct (kw_exact kw && negb (dep_exact (answer kw r q))); [done|].
  destruct (is_NullDependency (answer kw r q)); [done|].
  cbn [negb andb]. by rewrite od_set_absent.
Qed.

Lemma resolve_individually_app kw i r todo rtd m tr :
  resolve_individually kw i r todo rtd = (m, tr) →
  ∃ block : OrderedDict,
    m = rtd ++ block ∧ (od_keys block `sublist_of` todo) ∧
    NoDup (od_keys block) ∧
    Forall (λ e, (e.1 ∉ od_keys rtd) ∧ single_answer kw r e.1 = Some e.2) block.
Proof.
  revert rtd m tr. induction todo as [|q todo IH]; intros rtd m tr.
  - intros [= <- <-]. exists []. rewrite app_nil_r.
    split_and!; [done|done|constructor|constructor].
  - rewrite resolve_individually_cons.
    destruct (od_mem q rtd || negb (resolvable_type (req_type q))) eqn:Hc.
    { intros H. destruct (IH _ _ _ H) as (b & -> & Hs & Hnd & Hf).
      exists b. split_and!; auto. by apply sublist_cons. }
    apply orb_false_iff in Hc as [Hmem Hty].
    apply od_mem_false in Hmem. apply negb_false_iff in Hty.
    destruct (resolve_individually kw i r todo _) as [m' tr'] eqn:Hrec.
    intros [= <- <-]. destruct (IH _ _ _ Hrec) as (b & -> & Hs & Hnd & Hf).
    destruct (accepted kw (answer kw r q)) eqn:Hacc.
    + exists ((q, answer kw r q) :: b). rewrite <- app_assoc.
      assert (Hb : Forall (λ e, (e.1 ∉ od_keys rtd) ∧ e.1 ≠ q) b).
      { eapply Forall_impl; [exact Hf|]. intros e [Hn _].
        rewrite od_keys_app in Hn. rewrite not_elem_of_app in Hn.
        destruct Hn as [Hn1 Hn2]. split; [done|]. intros Heq.
        apply Hn2. rewrite Heq. apply list_elem_of_here. }
      split_and!; [done|by apply sublist_skip| |].
      * unfold od_keys. simpl. apply NoDup_cons. split; [|exact Hnd].
        intros Hin. apply list_elem_of_fmap in Hin as (e & He1 & He2).
        eapply Forall_forall in Hb; [|exact He2]. destruct Hb as [_ Hb].
        by apply Hb.
      * constructor.
        -- split; [done|]. unfold single_answer. cbn. by rewrite Hty, Hacc.
        -- apply Forall_forall. intros e He. split.
           ++ eapply Forall_forall in Hb; [|exact He]. by destruct Hb.
           ++ eapply Forall_forall in Hf; [|exact He]. by destruct Hf.
    + exists b. split_and!; auto. by apply sublist_cons.
Qed.

(** Every call made in the pass is a [resolve] for a requirement of the
    list that had no entry, and every such requirement is asked about. *)
Lemma resolve_individually_trace kw i r todo rtd m tr :
  resolve_individually kw i r todo rtd = (m, tr) →
  Forall (λ e, ∃ q, e = ev_resolve i q ∧ q ∈ todo ∧ (q ∉ od_keys rtd)
                    ∧ resolvable_type (req_type q) = true) tr.
Proof.
  revert rtd m tr. induction todo as [|q todo IH]; intros rtd m tr.
  - intros [= <- <-]. constructor.
  - rewrite resolve_individually_cons.
    destruct (od_mem q rtd || negb (resolvable_type (req_type q))) eqn:Hc.
    { intros H. eapply Forall_impl; [exact (IH _ _ _ H)|].
      intros e (q' & -> & Hin & Hn & Hty). exists q'.
      repeat split; auto. by apply list_elem_of_further. }
    apply orb_false_iff in Hc as [Hmem Hty].
    apply od_mem_false in Hmem. apply negb_false_iff in Hty.
    destruct (resolve_individually kw i r todo _) as [m' tr'] eqn:Hrec.
    intros [= <- <-]. constructor.
    + exists q. repeat split; auto. apply list_elem_of_here.
    + eapply Forall_impl; [exact (IH _ _ _ Hrec)|].
      intros e (q' & -> & Hin & Hn & Hty'). exists q'.
      repeat split; auto; [by apply list_elem_of_further|].
      intros Hq. apply Hn. destruct (accepted kw (answer kw r q)); [|done].
      rewrite od_keys_app. apply elem_of_app. by left.
Qed.

Lemma resolve_individually_asks kw i r todo rtd m tr q :
  resolve_individually kw i r todo rtd = (m, tr) →
  q ∈ todo → q ∉ od_keys rtd → resolvable_type (req_type q) = true →
  ev_resolve i q ∈ tr.
Proof.
  revert rtd m tr. induction todo as [|q0 todo IH]; intros rtd m tr H Hin Hn Hty.
  - by apply elem_of_nil in Hin.
  - rewrite resolve_individually_cons in H.
    destruct (decide (q = q0)) as [->|Hne].
    + apply od_mem_false in Hn. rewrite Hn, Hty in H. cbn in H.
      destruct (resolve_individually kw i r todo _) as [m' tr'].
      injection H as <- <-. apply list_elem_of_here.
    + apply elem_of_cons in Hin as [?|Hin]; [done|].
      destruct (od_mem q0 rtd || negb (resolvable_type (req_type q0))).
      { by eapply IH. }
      destruct (resolve_individually kw i r todo _) as [m' tr'] eqn:Hrec.
      injection H as <- <-. apply list_elem_of_further.
      eapply IH; [exact Hrec|done| |done].
      destruct (accepted kw (answer kw r q0)); [|done].
      rewrite od_keys_app. unfold od_keys at 2. simpl.
      rewrite elem_of_app, list_elem_of_singleton. naive_solver.
Qed.

(** ** The walk over the chain *)

Lemma resolvable_requirements_elem q requirements :
  q ∈ resolvable_requirements requirements ↔
  q ∈ requirements ∧ resolvable_type (req_type q) = true.
Proof.
  induction requirements as [|q0 qs IH]; simpl.
  - rewrite elem_of_nil. naive_solver.
  - destruct (resolvable_type (req_type q0)) eqn:Hty;
      rewrite ?elem_of_cons, IH; [naive_solver|].
    split; [naive_solver|]. intros [[->|?] Hq]; [congruence | done].
Qed.


Lemma od_set_elem k v (m : OrderedDict) e :
  e ∈ od_set k v m → e = (k, v) ∨ e ∈ m.
Proof.
  induction m as [|[k0 v0] m IH]; simpl.
  - rewrite list_elem_of_singleton. auto.
  - case_decide as Hk; rewrite !elem_of_cons; [subst; naive_solver|].
    intros [->|He]; [auto|]. destruct (IH He); auto.
Qed.

Lemma zip_into_spec qs ds (rtd : OrderedDict) :
  ∃ blk, od_keys (zip_into qs ds rtd) = od_keys rtd ++ blk ∧
         (blk `sublist_of` qs) ∧
         Forall (λ e, e.2 ∈ ds ∨ e ∈ rtd) (zip_into qs ds rtd).
Proof.
  revert ds rtd. induction qs as [|q qs IH]; intros ds rtd.
  { exists []. rewrite app_nil_r. simpl. split_and!; [done|constructor|].
    apply Forall_forall. auto. }
  destruct ds as [|d ds].
  { exists []. rewrite app_nil_r. simpl.
    split_and!; [done|apply sublist_nil_l|]. apply Forall_forall. auto. }
  simpl. destruct (IH ds (od_set q d rtd)) as (blk & Hk & Hs & Hf).
  assert (Forall (λ e, e.2 ∈ d :: ds ∨ e ∈ rtd) (zip_into qs ds (od_set q d rtd))).
  { eapply Forall_impl; [exact Hf|]. intros e [He|He].
    - left. by apply list_elem_of_further.
    - apply od_set_elem in He as [->|He]; [left; apply list_elem_of_here | auto]. }
  destruct (decide (q ∈ od_keys rtd)) as [Hin|Hn].
  - exists blk. rewrite Hk, od_set_present by done.
    split_and!; [done | by apply sublist_cons | done].
  - exists (q :: blk). split_and!; [|by apply sublist_skip | done].
    rewrite Hk, od_set_absent, od_keys_app by done.
    by rewrite <- app_assoc.
Qed.

Lemma walk_resolvers_cons kw resolvable i r rs rtd :
  walk_resolvers kw resolvable i (r :: rs) rtd =
  if skipped_by_index kw i then walk_resolvers kw resolvable (S i) rs rtd
  else if (length rtd =? length resolvable)%nat then (Returned rtd, [])
  else
    let bulk := bulk_answer kw resolvable r rtd in
    match bulk with
    | Some (d :: ds) =>
        if (length (d :: ds) =? length resolvable)%nat
        then (Returned (zip_into resolvable (d :: ds) rtd),
              asked_in_bulk i resolvable bulk)
        else (Raised AssertionError, asked_in_bulk i resolvable bulk)
    | _ =>
        let '(rtd', tr) := resolve_individually kw i r resolvable rtd in
        let '(out, tr') := walk_resolvers kw resolvable (S i) rs rtd' in
        (out, asked_in_bulk i resolvable bulk ++ tr ++ tr')
    end.
Proof. reflexivity. Qed.

Lemma bulk_answer_Some kw resolvable r rtd ds :
  bulk_answer kw resolvable r rtd = Some ds →
  rtd = [] ∧ ∃ f, resolve_all r = Some f ∧ ds = f resolvable kw.
Proof.
  unfold bulk_answer. destruct rtd; simpl; [|done].
  destruct (resolve_all r) as [f|]; simpl; [|done].
  intros [= <-]. eauto.
Qed.

Lemma bulk_answer_nil kw resolvable r f :
  resolve_all r = Some f →
  bulk_answer kw resolvable r [] = Some (f resolvable kw).
Proof. unfold bulk_answer. by intros ->. Qed.

Lemma no_blocks {P : OrderedDict → Resolver → Prop} (rs : list Resolver) :
  (∀ r, P [] r) →
  Forall2 P (replicate (length rs) []) rs ∧
  concat (replicate (length rs) ([] : OrderedDict)) = [].
Proof. intros HP. induction rs as [|r rs [IH1 IH2]]; simpl; split; auto. Qed.

(** The mapping returned by the walk is the starting mapping followed by
    one block of entries per resolver, in chain order; each block lists
    requirements in the order of the resolvable list, and its entries are
    contributions of that resolver. *)
Lemma walk_structure kw resolvable i rs rtd m tr :
  walk_resolvers kw resolvable i rs rtd = (Returned m, tr) →
  ∃ blocks : list OrderedDict,
    m = rtd ++ concat blocks ∧
    Forall2 (λ b r, (od_keys b `sublist_of` resolvable) ∧
                    Forall (from_resolver kw resolvable r) b) blocks rs.
Proof.
  set (P := λ (b : OrderedDict) r, (od_keys b `sublist_of` resolvable) ∧
                    Forall (from_resolver kw resolvable r) b).
  assert (HP : ∀ r, P [] r).
  { intros r. split; [apply sublist_nil_l | constructor]. }
  revert i rtd m tr. induction rs as [|r rs IH]; intros i rtd m tr.
  { intros [= <- <-]. exists []. simpl. by rewrite app_nil_r. }
  rewrite walk_resolvers_cons.
  destruct (skipped_by_index kw i).
  { intros H. destruct (IH _ _ _ _ H) as (bs & -> & HF).
    exists ([] :: bs). split; [done|]. by constructor. }
  destruct (length rtd =? length resolvable)%nat.
  { intros [= <- <-]. destruct (no_blocks (r :: rs) HP) as [HF Hc].
    eexists. rewrite Hc, app_nil_r. split; [done | exact HF]. }
  cbv zeta. destruct (bulk_answer kw resolvable r rtd) as [[|d ds]|] eqn:Hb.
  3: {
    destruct (resolve_individually kw i r resolvable rtd) as [rtd' tr1] eqn:Hi.
    destruct (walk_resolvers kw resolvable (S i) rs rtd') as [out tr2] eqn:Hw.
    intros [= -> <-].
    destruct (resolve_individually_app _ _ _ _ _ _ _ Hi) as (b & -> & Hs & _ & Hf).
    destruct (IH _ _ _ _ Hw) as (bs & -> & HF).
    exists (b :: bs). simpl. rewrite app_assoc. split; [done|].
    constructor; [|done]. split; [done|].
    eapply Forall_impl; [exact Hf|]. intros e [_ He]. by left. }
  { destruct (resolve_individually kw i r resolvable rtd) as [rtd' tr1] eqn:Hi.
    destruct (walk_resolvers kw resolvable (S i) rs rtd') as [out tr2] eqn:Hw.
    intros [= -> <-].
    destruct (resolve_individually_app _ _ _ _ _ _ _ Hi) as (b & -> & Hs & _ & Hf).
    destruct (IH _ _ _ _ Hw) as (bs & -> & HF).
    exists (b :: bs). simpl. rewrite app_assoc. split; [done|].
    constructor; [|done]. split; [done|].
    eapply Forall_impl; [exact Hf|]. intros e [_ He]. by left. }
  apply bulk_answer_Some in Hb as (-> & f & Hf & Hds).
  destruct (length (d :: ds) =? length resolvable)%nat; [|done].
  intros [= <- <-].
  destruct (zip_into_spec resolvable (d :: ds) []) as (blk & Hk & Hs & Hfa).
  destruct (no_blocks rs HP) as [HF Hc].
  exists (zip_into resolvable (d :: ds) [] :: replicate (length rs) []).
  split; [cbn [concat app]; by rewrite Hc, app_nil_r|].
  constructor; [|done]. split.
  - rewrite Hk. done.
  - eapply Forall_impl; [exact Hfa|]. intros e [He|He].
    + right. exists f. split; [done|]. by rewrite <- Hds.
    + by apply elem_of_nil in He.
Qed.

Lemma consults_ev_resolve A j q : consults A (ev_resolve j q) ↔ A = q.
Proof. destruct q. simpl. done. Qed.

Lemma walk_event_mono resolvable i (rtd b : OrderedDict) e :
  walk_event resolvable (S i) (rtd ++ b) e → walk_event resolvable i rtd e.
Proof.
  intros (j & Hj & Hi & H). exists j. split; [lia|]. split; [done|].
  destruct H as [[-> Hnil]|(q & -> & Hin & Hn & Hty)].
  - left. split; [done|]. by apply app_eq_nil in Hnil as [-> _].
  - right. exists q. split_and!; auto. intros Hq. apply Hn.
    rewrite od_keys_app. apply elem_of_app. by left.
Qed.

Lemma walk_trace kw resolvable i rs rtd out tr :
  walk_resolvers kw resolvable i rs rtd = (out, tr) →
  Forall (walk_event resolvable i rtd) tr.
Proof.
  revert i rtd out tr. induction rs as [|r rs IH]; intros i rtd out tr.
  { intros [= <- <-]. constructor. }
  rewrite walk_resolvers_cons.
  destruct (skipped_by_index kw i).
  { intros H. eapply Forall_impl; [exact (IH _ _ _ _ H)|].
    intros e He. apply (walk_event_mono _ _ _ []). by rewrite app_nil_r. }
  destruct (length rtd =? length resolvable)%nat.
  { intros [= <- <-]. constructor. }
  cbv zeta.
  assert (Hasked : Forall (walk_event resolvable i rtd)
            (asked_in_bulk i resolvable (bulk_answer kw resolvable r rtd))).
  { destruct (bulk_answer kw resolvable r rtd) as [ds|] eqn:Hb; simpl;
      [|constructor].
    apply bulk_answer_Some in Hb as [-> _]. constructor; [|constructor].
    exists i. split_and!; [lia|done|]. by left. }
  assert (Hind : ∀ rtd' tr1 out' tr2,
    resolve_individually kw i r resolvable rtd = (rtd', tr1) →
    walk_resolvers kw resolvable (S i) rs rtd' = (out', tr2) →
    Forall (walk_event resolvable i rtd)
      (asked_in_bulk i resolvable (bulk_answer kw resolvable r rtd) ++ tr1 ++ tr2)).
  { intros rtd' tr1 out' tr2 Hi Hw. rewrite !Forall_app. split_and!; [done| |].
    - eapply Forall_impl; [exact (resolve_individually_trace _ _ _ _ _ _ _ Hi)|].
      intros e (q & -> & Hin & Hn & Hty). exists i.
      split_and!; [lia|by destruct q|]. right. by exists q.
    - destruct (resolve_individually_app _ _ _ _ _ _ _ Hi) as (b & -> & _).
      eapply Forall_impl; [exact (IH _ _ _ _ Hw)|].
      intros e. apply walk_event_mono. }
  destruct (bulk_answer kw resolvable r rtd) as [[|d ds]|] eqn:Hb.
  - destruct (resolve_individually kw i r resolvable rtd) as [rtd' tr1] eqn:Hi.
    destruct (walk_resolvers kw resolvable (S i) rs rtd') as [out' tr2] eqn:Hw.
    intros [= <- <-]. by eapply Hind.
  - destruct (length (d :: ds) =? length resolvable)%nat;
      intros [= <- <-]; exact Hasked.
  - destruct (resolve_individually kw i r resolvable rtd) as [rtd' tr1] eqn:Hi.
    destruct (walk_resolvers kw resolvable (S i) rs rtd') as [out' tr2] eqn:Hw.
    intros [= <- <-]. by eapply Hind.
Qed.

Lemma walk_returns kw resolvable i rs rtd :
  rtd ≠ [] ∨ Forall (no_bulk_answer kw resolvable) rs →
  ∃ m tr, walk_resolvers kw resolvable i rs rtd = (Returned m, tr).
Proof.
  revert i rtd. induction rs as [|r rs IH]; intros i rtd Hok.
  { by eexists _, _. }
  rewrite walk_resolvers_cons.
  assert (Hrs : ∀ b : OrderedDict, rtd ++ b ≠ [] ∨ Forall (no_bulk_answer kw resolvable) rs).
  { intros b. destruct Hok as [Hne|Hf]; [left | right; by inversion Hf].
    intros [-> _]%app_eq_nil. done. }
  destruct (skipped_by_index kw i).
  { apply IH. specialize (Hrs []). by rewrite app_nil_r in Hrs. }
  destruct (length rtd =? length resolvable)%nat; [by eexists _, _|].
  cbv zeta.
  assert (Hb : ∀ d ds, bulk_answer kw resolvable r rtd ≠ Some (d :: ds)).
  { intros d ds Hb. apply bulk_answer_Some in Hb as (-> & f & Hf & Hds).
    destruct Hok as [?|Hall]; [done|]. inversion Hall as [|? ? Hr _]; subst.
    unfold no_bulk_answer in Hr. rewrite Hf in Hr. congruence. }
  destruct (bulk_answer kw resolvable r rtd) as [[|d ds]|] eqn:Hbe;
    [| by destruct (Hb d ds) |].
  all: destruct (resolve_individually kw i r resolvable rtd) as [rtd' tr1] eqn:Hi.
  all: destruct (resolve_individually_app _ _ _ _ _ _ _ Hi) as (b & -> & _).
  all: destruct (IH (S i) _ (Hrs b)) as (m & tr & ->); by eexists _, _.
Qed.

(** ** Order of the entries *)




(** ** Requirements of an unresolvable type *)

(** C8: every key of the returned mapping is a requirement of the input
    whose type is 'package' or 'set_environment', and every requirement
    handed to a resolver, in a bulk call or in a single [resolve], is such
    a requirement. *)
Theorem unresolvable_types_ignored kw rs requirements out tr :
  _requirements_to_dependencies_dict rs requirements kw = (out, tr) →
  (∀ m, out = Returned m →
     Forall (λ q, q ∈ requirements ∧ resolvable_type (req_type q) = true)
       (od_keys m)) ∧
  Forall (λ e, ∀ q, consults q e →
            q ∈ requirements ∧ resolvable_type (req_type q) = true) tr.
Proof.
  intros H. split.
  - intros m ->. destruct (walk_structure _ _ _ _ _ _ _ H) as (bs & -> & HF).
    simpl. apply Forall_forall. intros q Hq.
    apply resolvable_requirements_elem.
    unfold od_keys in Hq. apply list_elem_of_fmap in Hq as ([q' d] & -> & He).
    apply list_elem_of_In, in_concat in He as (b & Hb & He).
    apply list_elem_of_In in Hb, He.
    apply list_elem_of_lookup in Hb as [k Hk].
    destruct (Forall2_lookup_l _ _ _ _ _ HF Hk) as (r & _ & Hs & _).
    eapply elem_of_sublist; [|exact Hs].
    unfold od_keys. apply list_elem_of_fmap. by exists (q', d).
  - eapply Forall_impl; [exact (walk_trace _ _ _ _ _ _ _ H)|].
    intros e (j & _ & _ & He) q Hq. apply resolvable_requirements_elem.
    destruct He as [[-> _]|(q' & -> & Hin & _ & Hty)].
    + exact Hq.
    + apply consults_ev_resolve in Hq as ->. done.
Qed.

Lemma unresolvable_types_ignored_witness :
  (∀ m, Returned [(Ex.samtools, Ex.conda_dep Ex.samtools)] = Returned m →
     Forall (λ q, q ∈ [Ex.binary; Ex.samtools]
                  ∧ resolvable_type (req_type q) = true) (od_keys m)) ∧
  Forall (λ e, ∀ q, consults q e →
            q ∈ [Ex.binary; Ex.samtools] ∧ resolvable_type (req_type q) = true)
    [EvResolveAll 0 [Ex.samtools]].
Proof.
  apply (unresolvable_types_ignored Ex.kwds [Ex.bulk] [Ex.binary; Ex.samtools]).
  vm_compute. reflexivity.
Defined.

(** ** Bulk answers *)

Lemma zip_into_NoDup qs ds (rtd : OrderedDict) :
  NoDup qs → Forall (λ q, q ∉ od_keys rtd) qs →
  zip_into qs ds rtd = rtd ++ zip qs ds.
Proof.
  revert ds rtd. induction qs as [|q qs IH]; intros ds rtd Hnd Hf; simpl.
  { by rewrite app_nil_r. }
  destruct ds as [|d ds]; simpl; [by rewrite app_nil_r|].
  apply NoDup_cons in Hnd as [Hq Hnd]. apply Forall_cons in Hf as [Hqr Hf].
  rewrite od_set_absent by done. rewrite IH; [by rewrite <- app_assoc|done|].
  apply Forall_forall. intros q' Hq'. rewrite od_keys_app.
  rewrite elem_of_app. intros [Hin|Hin].
  - by eapply Forall_forall in Hf.
  - apply list_elem_of_singleton in Hin as ->. done.
Qed.

(** A non-empty bulk answer of the resolver at position [i], asked on an
    empty mapping: an assertion failure or the zipped mapping, and in both
    cases the end of the walk. *)
Lemma walk_bulk_answer kw resolvable i r rs f :
  skipped_by_index kw i = false →
  resolvable ≠ [] →
  resolve_all r = Some f →
  f resolvable kw ≠ [] →
  (length (f resolvable kw) ≠ length resolvable →
     walk_resolvers kw resolvable i (r :: rs) [] =
       (Raised AssertionError, [EvResolveAll i resolvable])) ∧
  (length (f resolvable kw) = length resolvable →
     walk_resolvers kw resolvable i (r :: rs) [] =
       (Returned (zip_into resolvable (f resolvable kw) []),
        [EvResolveAll i resolvable]) ∧
     (NoDup resolvable →
        zip_into resolvable (f resolvable kw) [] = zip resolvable (f resolvable kw))).
Proof.
  intros Hskip Hne Hf Hds.
  rewrite walk_resolvers_cons, Hskip.
  assert (Hlen : (length ([] : OrderedDict) =? length resolvable)%nat = false).
  { destruct resolvable; [done|reflexivity]. }
  rewrite Hlen. cbv zeta. rewrite (bulk_answer_nil _ _ _ _ Hf).
  destruct (f resolvable kw) as [|d ds] eqn:E; [done|]. split.
  - intros Hl. apply Nat.eqb_neq in Hl. by rewrite Hl.
  - intros Hl. split; [apply Nat.eqb_eq in Hl; by rewrite Hl|].
    intros Hnd. change (zip_into resolvable (d :: ds) [] = [] ++ zip resolvable (d :: ds)).
    apply zip_into_NoDup; [done|]. apply Forall_forall. intros q _.
    apply not_elem_of_nil.
Qed.

Lemma zip_into_nonempty q qs d ds (rtd : OrderedDict) :
  zip_into (q :: qs) (d :: ds) rtd ≠ [].
Proof.
  simpl. destruct (zip_into_spec qs ds (od_set q d rtd)) as (blk & Hk & _).
  intros Heq. rewrite Heq in Hk. unfold od_keys in Hk at 1. simpl in Hk.
  symmetry in Hk. apply app_eq_nil in Hk as [Hk _].
  destruct rtd as [|[k v] rtd]; simpl in Hk; [done|]. by case_decide.
Qed.

(** Resolvers that leave the mapping empty, with something to resolve,
    have not ended the walk: the walk goes on with the resolvers after
    them, from the empty mapping. *)
Lemma walk_app_empty kw resolvable rest rs0 :
  resolvable ≠ [] →
  ∀ i rtd tr0,
    walk_resolvers kw resolvable i rs0 rtd = (Returned [], tr0) →
    walk_resolvers kw resolvable i (rs0 ++ rest) rtd =
    (let '(out, tr) := walk_resolvers kw resolvable (i + length rs0) rest [] in
     (out, tr0 ++ tr)).
Proof.
  intros Hne. induction rs0 as [|r rs0 IH]; intros i rtd tr0.
  { intros [= -> <-]. simpl. rewrite Nat.add_0_r.
    by destruct (walk_resolvers kw resolvable i rest []). }
  rewrite <- app_comm_cons, !walk_resolvers_cons.
  assert (Hidx : (i + length (r :: rs0) = S i + length rs0)%nat) by (simpl; lia).
  rewrite Hidx.
  destruct (skipped_by_index kw i); [apply IH|].
  destruct (length rtd =? length resolvable)%nat eqn:Hlen.
  { intros [= -> <-]. apply Nat.eqb_eq in Hlen. by destruct resolvable. }
  cbv zeta.
  assert (Hind : ∀ asked rtd' t1 out t2,
    walk_resolvers kw resolvable (S i) rs0 rtd' = (out, t2) →
    (out, asked ++ t1 ++ t2) = (Returned [], tr0) →
    (let '(out', tr') := walk_resolvers kw resolvable (S i) (rs0 ++ rest) rtd' in
     (out', asked ++ t1 ++ tr'))
    = (let '(out', tr') := walk_resolvers kw resolvable (S i + length rs0) rest [] in
       (out', tr0 ++ tr'))).
  { intros asked rtd' t1 out t2 Hw [= -> <-]. rewrite (IH _ _ _ Hw).
    destruct (walk_resolvers kw resolvable (S i + length rs0) rest []).
    by rewrite !app_assoc. }
  destruct (bulk_answer kw resolvable r rtd) as [[|d ds]|] eqn:Hb.
  - destruct (resolve_individually kw i r resolvable rtd) as [rtd' t1].
    destruct (walk_resolvers kw resolvable (S i) rs0 rtd') as [out t2] eqn:Hw.
    intros Heq. by eapply Hind.
  - destruct (length (d :: ds) =? length resolvable)%nat eqn:Hl; [|done].
    intros [= Hz _]. destruct resolvable as [|q qs]; [done|].
    by apply zip_into_nonempty in Hz.
  - destruct (resolve_individually kw i r resolvable rtd) as [rtd' t1].
    destruct (walk_resolvers kw resolvable (S i) rs0 rtd') as [out t2] eqn:Hw.
    intros Heq. by eapply Hind.
Qed.

(** C3: a resolver [r] with [resolve_all] whose turn comes while the
    mapping is still empty (the resolvers [rs0] before it have resolved
    nothing, there is something to resolve, [index] does not pass it
    over) and whose bulk answer is not empty.  When the length of the
    answer differs from that of the resolvable list, resolution raises
    [AssertionError] and returns no mapping.  With equal lengths the
    answer is zipped into the mapping position by position and
    resolution returns it at once: the bulk call is the last call made,
    whatever resolvers follow [r] in the chain. *)
Theorem bulk_answer_all_or_nothing kw requirements rs0 r rs f tr0 :
  let resolvable := resolvable_requirements requirements in
  _requirements_to_dependencies_dict rs0 requirements kw = (Returned [], tr0) →
  skipped_by_index kw (length rs0) = false →
  resolvable ≠ [] →
  resolve_all r = Some f →
  f resolvable kw ≠ [] →
  (length (f resolvable kw) ≠ length resolvable →
     _requirements_to_dependencies_dict (rs0 ++ r :: rs) requirements kw =
       (Raised AssertionError, tr0 ++ [EvResolveAll (length rs0) resolvable])) ∧
  (length (f resolvable kw) = length resolvable →
     _requirements_to_dependencies_dict (rs0 ++ r :: rs) requirements kw =
       (Returned (zip_into resolvable (f resolvable kw) []),
        tr0 ++ [EvResolveAll (length rs0) resolvable]) ∧
     (NoDup resolvable →
        zip_into resolvable (f resolvable kw) [] = zip resolvable (f resolvable kw))).
Proof.
  intros resolvable H0 Hskip Hne Hf Hds.
  unfold _requirements_to_dependencies_dict in *. fold resolvable in H0 |- *.
  rewrite (walk_app_empty kw resolvable (r :: rs) rs0 Hne 0 [] tr0 H0).
  cbn [Nat.add].
  destruct (walk_bulk_answer kw resolvable (length rs0) r rs f Hskip Hne Hf Hds)
    as [Hbad Hgood].
  split.
  - intros Hl. by rewrite (Hbad Hl).
  - intros Hl. destruct (Hgood Hl) as [Hw Hzip]. by rewrite Hw.
Qed.

Lemma bulk_answer_all_or_nothing_witness :
  (_requirements_to_dependencies_dict
     ([Ex.knows "bowtie" true "conda"] ++ Ex.short_bulk :: [Ex.bulk])
     [Ex.samtools; Ex.binary; Ex.bwa] Ex.kwds =
     (Raised AssertionError,
      [ev_resolve 0 Ex.samtools; ev_resolve 0 Ex.bwa]
      ++ [EvResolveAll 1 [Ex.samtools; Ex.bwa]])) ∧
  (_requirements_to_dependencies_dict
     ([Ex.knows "bowtie" true "conda"] ++ Ex.bulk :: [Ex.short_bulk])
     [Ex.samtools; Ex.binary; Ex.bwa] Ex.kwds =
     (Returned [(Ex.samtools, Ex.conda_dep Ex.samtools); (Ex.bwa, Ex.conda_dep Ex.bwa)],
      [ev_resolve 0 Ex.samtools; ev_resolve 0 Ex.bwa]
      ++ [EvResolveAll 1 [Ex.samtools; Ex.bwa]])).
Proof.
  split.
  - refine (proj1 (bulk_answer_all_or_nothing Ex.kwds
                     [Ex.samtools; Ex.binary; Ex.bwa]
                     [Ex.knows "bowtie" true "conda"] Ex.short_bulk [Ex.bulk]
                     _ _ _ eq_refl _ eq_refl _) _);
      vm_compute; (reflexivity || discriminate).
  - refine (proj1 (proj2 (bulk_answer_all_or_nothing Ex.kwds
                     [Ex.samtools; Ex.binary; Ex.bwa]
                     [Ex.knows "bowtie" true "conda"] Ex.bulk [Ex.short_bulk]
                     _ _ _ eq_refl _ eq_refl _) _));
      vm_compute; (reflexivity || discriminate).
Defined.

(** C10: a resolver with [resolve_all] whose bulk answer is empty is not
    skipped.  In the same pass it is asked through [resolve] about every
    resolvable requirement, and only after these calls does the walk go on
    with the next resolver, from the mapping this pass has built. *)
Theorem empty_bulk_answer_falls_back kw requirements i r rs f :
  let resolvable := resolvable_requirements requirements in
  skipped_by_index kw i = false →
  resolvable ≠ [] →
  resolve_all r = Some f →
  f resolvable kw = [] →
  ∃ rtd' tr1 out tr2,
    resolve_individually kw i r resolvable [] = (rtd', tr1) ∧
    walk_resolvers kw resolvable (S i) rs rtd' = (out, tr2) ∧
    walk_resolvers kw resolvable i (r :: rs) [] =
      (out, EvResolveAll i resolvable :: tr1 ++ tr2) ∧
    Forall (λ q, ev_resolve i q ∈ tr1) resolvable ∧
    Forall (λ e, ev_index e = Some i) tr1 ∧
    Forall (λ e, ∃ j, ev_index e = Some j ∧ (i < j)%nat) tr2.
Proof.
  intros resolvable Hskip Hne Hf Hds.
  destruct (resolve_individually kw i r resolvable []) as [rtd' tr1] eqn:Hi.
  destruct (walk_resolvers kw resolvable (S i) rs rtd') as [out tr2] eqn:Hw.
  exists rtd', tr1, out, tr2. split_and!; [done|done| | | |].
  - rewrite walk_resolvers_cons, Hskip.
    assert (Hlen : (length ([] : OrderedDict) =? length resolvable)%nat = false).
    { destruct resolvable; [done|reflexivity]. }
    rewrite Hlen. cbv zeta. rewrite (bulk_answer_nil _ _ _ _ Hf), Hds.
    by rewrite Hi, Hw.
  - apply Forall_forall. intros q Hq.
    eapply resolve_individually_asks; [exact Hi|done|apply not_elem_of_nil|].
    by apply resolvable_requirements_elem in Hq as [_ ?].
  - eapply Forall_impl; [exact (resolve_individually_trace _ _ _ _ _ _ _ Hi)|].
    intros e (q & -> & _). by destruct q.
  - eapply Forall_impl; [exact (walk_trace _ _ _ _ _ _ _ Hw)|].
    intros e (j & Hj & He & _). exists j. split; [done|lia].
Qed.

Lemma empty_bulk_answer_falls_back_witness :
  ∃ rtd' tr1 out tr2,
    resolve_individually Ex.kwds 0 Ex.empty_bulk [Ex.samtools; Ex.bwa] [] = (rtd', tr1) ∧
    walk_resolvers Ex.kwds [Ex.samtools; Ex.bwa] 1 [Ex.bulk] rtd' = (out, tr2) ∧
    walk_resolvers Ex.kwds [Ex.samtools; Ex.bwa] 0 [Ex.empty_bulk; Ex.bulk] [] =
      (out, EvResolveAll 0 [Ex.samtools; Ex.bwa] :: tr1 ++ tr2) ∧
    Forall (λ q, ev_resolve 0 q ∈ tr1) [Ex.samtools; Ex.bwa] ∧
    Forall (λ e, ev_index e = Some 0) tr1 ∧
    Forall (λ e, ∃ j, ev_index e = Some j ∧ (0 < j)%nat) tr2.
Proof.
  refine (empty_bulk_answer_falls_back Ex.kwds [Ex.samtools; Ex.bwa] 0
            Ex.empty_bulk [Ex.bulk] _ eq_refl _ eq_refl eq_refl).
  vm_compute. discriminate.
Defined.

(** ** An entry, once made, is final *)

Lemma walk_keeps_entry kw resolvable i rs rtd A d :
  od_get A rtd = Some d →
  ∃ m tr, walk_resolvers kw resolvable i rs rtd = (Returned m, tr) ∧
          od_get A m = Some d ∧ Forall (λ e, ¬ consults A e) tr.
Proof.
  intros HA.
  assert (Hne : rtd ≠ []) by (by intros ->).
  destruct (walk_returns kw resolvable i rs rtd (or_introl Hne)) as (m & tr & H).
  exists m, tr. split_and!; [done| |].
  - destruct (walk_structure _ _ _ _ _ _ _ H) as (bs & -> & _).
    by apply od_get_app_l.
  - eapply Forall_impl; [exact (walk_trace _ _ _ _ _ _ _ H)|].
    intros e (j & _ & _ & He) Hc.
    destruct He as [[_ ->]|(q & -> & _ & Hn & _)]; [done|].
    apply consults_ev_resolve in Hc as ->. apply Hn. by eapply od_get_Some.
Qed.

Lemma walk_prefix_entry kw resolvable rs2 A d rs1 :
  ∀ i rtd m1 tr1,
    walk_resolvers kw resolvable i rs1 rtd = (Returned m1, tr1) →
    od_get A m1 = Some d →
    ∃ m tr,
      walk_resolvers kw resolvable i (rs1 ++ rs2) rtd = (Returned m, tr) ∧
      od_get A m = Some d ∧
      Forall (λ e, ∀ j, ev_index e = Some j → (i + length rs1 ≤ j)%nat →
                        ¬ consults A e) tr.
Proof.
  induction rs1 as [|r rs1 IH]; intros i rtd m1 tr1.
  { intros [= <- <-] HA.
    destruct (walk_keeps_entry kw resolvable i rs2 rtd A d HA) as (m & tr & H & Hm & Htr).
    exists m, tr. split_and!; [done|done|].
    eapply Forall_impl; [exact Htr|]. auto. }
  rewrite <- app_comm_cons, !walk_resolvers_cons.
  destruct (skipped_by_index kw i).
  { intros H HA. destruct (IH _ _ _ _ H HA) as (m & tr & Hw & Hm & Htr).
    exists m, tr. split_and!; [done|done|].
    eapply Forall_impl; [exact Htr|]. intros e He j Hj Hle. apply (He j Hj).
    simpl in Hle. lia. }
  destruct (length rtd =? length resolvable)%nat.
  { intros [= <- <-] HA. exists rtd, []. split_and!; [done|done|constructor]. }
  cbv zeta.
  assert (Hasked : Forall (λ e, ev_index e = Some i)
            (asked_in_bulk i resolvable (bulk_answer kw resolvable r rtd))).
  { destruct (bulk_answer kw resolvable r rtd); repeat constructor. }
  assert (Hearly : ∀ tr, Forall (λ e, ev_index e = Some i) tr →
            Forall (λ e, ∀ j, ev_index e = Some j →
                         (i + length (r :: rs1) ≤ j)%nat → ¬ consults A e) tr).
  { intros tr Htr. eapply Forall_impl; [exact Htr|].
    intros e He j Hj Hle. simpl in Hle.
    rewrite He in Hj. injection Hj as <-. lia. }
  assert (Hind : ∀ rtd' t1 out t2,
    resolve_individually kw i r resolvable rtd = (rtd', t1) →
    walk_resolvers kw resolvable (S i) rs1 rtd' = (out, t2) →
    (out, asked_in_bulk i resolvable (bulk_answer kw resolvable r rtd) ++ t1 ++ t2)
      = (Returned m1, tr1) →
    od_get A m1 = Some d →
    ∃ m tr,
      (let '(out', t2') := walk_resolvers kw resolvable (S i) (rs1 ++ rs2) rtd' in
       (out', asked_in_bulk i resolvable (bulk_answer kw resolvable r rtd) ++ t1 ++ t2'))
        = (Returned m, tr) ∧
      od_get A m = Some d ∧
      Forall (λ e, ∀ j, ev_index e = Some j →
                        (i + length (r :: rs1) ≤ j)%nat → ¬ consults A e) tr).
  { intros rtd' t1 out t2 Hi Hw [= -> <-] HA.
    destruct (IH _ _ _ _ Hw HA) as (m & tr & Hw' & Hm & Htr).
    rewrite Hw'. eexists _, _. split_and!; [done|done|].
    rewrite !Forall_app. split_and!.
    - by apply Hearly.
    - apply Hearly.
      eapply Forall_impl; [exact (resolve_individually_trace _ _ _ _ _ _ _ Hi)|].
      intros e (q & -> & _). by destruct q.
    - eapply Forall_impl; [exact Htr|]. intros e He j Hj Hle. apply (He j Hj).
      simpl in Hle. lia. }
  destruct (bulk_answer kw resolvable r rtd) as [[|d0 ds]|] eqn:Hb.
  - destruct (resolve_individually kw i r resolvable rtd) as [rtd' t1] eqn:Hi.
    destruct (walk_resolvers kw resolvable (S i) rs1 rtd') as [out t2] eqn:Hw.
    by eapply Hind.
  - destruct (length (d0 :: ds) =? length resolvable)%nat; [|done].
    intros [= <- <-] HA. eexists _, _. split_and!; [done|done|].
    by apply Hearly.
  - destruct (resolve_individually kw i r resolvable rtd) as [rtd' t1] eqn:Hi.
    destruct (walk_resolvers kw resolvable (S i) rs1 rtd') as [out t2] eqn:Hw.
    by eapply Hind.
Qed.

(** C6: if the resolvers [rs1] at the head of a chain give requirement [A]
    the entry [d], then with any resolvers [rs2] after them the mapping is
    still returned, [A] still has the entry [d], and no resolver of [rs2]
    is handed [A], in a bulk call or in a single [resolve].  With
    [rs1 = [R1]] and [rs2 = [R2]]: the entry comes from R1. *)
Theorem resolved_entry_is_final kw requirements rs1 rs2 A d m1 tr1 :
  _requirements_to_dependencies_dict rs1 requirements kw = (Returned m1, tr1) →
  od_get A m1 = Some d →
  ∃ m tr,
    _requirements_to_dependencies_dict (rs1 ++ rs2) requirements kw
      = (Returned m, tr) ∧
    od_get A m = Some d ∧
    Forall (λ e, ∀ j, ev_index e = Some j → (length rs1 ≤ j)%nat →
                      ¬ consults A e) tr.
Proof.
  intros H HA.
  exact (walk_prefix_entry kw _ rs2 A d rs1 0 [] m1 tr1 H HA).
Qed.

Lemma resolved_entry_is_final_witness :
  ∃ m tr,
    _requirements_to_dependencies_dict
      ([Ex.knows "samtools" false "galaxy_package"] ++ [Ex.knows "samtools" true "conda"])
      [Ex.samtools; Ex.bwa] Ex.kwds = (Returned m, tr) ∧
    od_get Ex.samtools m
      = Some (ResolvedDependency "samtools" (Some "1.3") false "galaxy_package" true "found") ∧
    Forall (λ e, ∀ j, ev_index e = Some j → (1 ≤ j)%nat →
                      ¬ consults Ex.samtools e) tr.
Proof.
  refine (resolved_entry_is_final Ex.kwds [Ex.samtools; Ex.bwa]
            [Ex.knows "samtools" false "galaxy_package"]
            [Ex.knows "samtools" true "conda"] Ex.samtools _ _ _ _ _).
  - vm_compute. reflexivity.
  - vm_compute. reflexivity.
Defined.

(** ** The [exact] option *)

Lemma single_answer_Some kw r q d :
  single_answer kw r q = Some d ↔
  resolvable_type (req_type q) = true ∧ accepted kw (answer kw r q) = true
  ∧ d = answer kw r q.
Proof.
  unfold single_answer.
  destruct (resolvable_type (req_type q)), (accepted kw (answer kw r q));
    cbn; naive_solver.
Qed.

Lemma accepted_exact kw d :
  kw_exact kw = true → accepted kw d = true → dep_exact d = true.
Proof.
  unfold accepted. intros ->. by destruct (dep_exact d), (is_NullDependency d).
Qed.

Lemma decide_elem_of_cons_ne {B} (q q0 : ToolRequirement) todo (x y : B) :
  q ≠ q0 →
  (if decide (q ∈ q0 :: todo) then x else y)
  = (if decide (q ∈ todo) then x else y).
Proof.
  intros Hne. repeat case_decide; try done.
  - match goal with H : q ∈ _ :: _ |- _ => apply elem_of_cons in H as [?|?] end;
      done.
  - match goal with H : q ∉ _ :: _ |- _ => apply not_elem_of_cons in H as [_ ?] end;
      done.
Qed.

(** The entry a pass over [todo] leaves for [q]. *)
Lemma resolve_individually_get kw i r todo rtd m tr q :
  resolve_individually kw i r todo rtd = (m, tr) →
  od_get q m =
    match od_get q rtd with
    | Some d => Some d
    | None => if decide (q ∈ todo) then single_answer kw r q else None
    end.
Proof.
  revert rtd m tr. induction todo as [|q0 todo IH]; intros rtd m tr.
  { intros [= <- <-]. destruct (od_get q rtd); [done|].
    case_decide as Hin; [by apply elem_of_nil in Hin | done]. }
  rewrite resolve_individually_cons.
  destruct (od_mem q0 rtd || negb (resolvable_type (req_type q0))) eqn:Hc.
  { intros H. rewrite (IH _ _ _ H). destruct (od_get q rtd) eqn:Hq; [done|].
    destruct (decide (q = q0)) as [->|Hne].
    - assert (single_answer kw r q0 = None) as Hsa.
      { apply orb_true_iff in Hc as [Hc|Hc].
        - apply od_mem_true in Hc. by apply od_get_None in Hq.
        - apply negb_true_iff in Hc. unfold single_answer. by rewrite Hc. }
      rewrite Hsa. by repeat case_decide.
    - by rewrite decide_elem_of_cons_ne. }
  apply orb_false_iff in Hc as [Hmem Hty].
  apply od_mem_false in Hmem. apply negb_false_iff in Hty.
  destruct (resolve_individually kw i r todo _) as [m' tr'] eqn:Hrec.
  intros [= <- <-]. rewrite (IH _ _ _ Hrec).
  destruct (decide (q = q0)) as [->|Hne].
  - apply od_get_None in Hmem. rewrite Hmem.
    rewrite (decide_True (P := q0 ∈ q0 :: todo)) by apply list_elem_of_here.
    unfold single_answer. rewrite Hty. cbn [andb].
    destruct (accepted kw (answer kw r q0)) eqn:Hacc.
    + rewrite od_get_app_r by done. simpl. by rewrite decide_True.
    + rewrite Hmem. by case_decide.
  - assert (od_get q (if accepted kw (answer kw r q0)
                      then rtd ++ [(q0, answer kw r q0)] else rtd) = od_get q rtd) as ->.
    { destruct (accepted kw (answer kw r q0)); [|done].
      destruct (od_get q rtd) eqn:Hq.
      - by apply od_get_app_l.
      - rewrite od_get_app_r by done. simpl. by rewrite decide_False. }
    destruct (od_get q rtd); [done|]. by rewrite decide_elem_of_cons_ne.
Qed.

Lemma full_mapping (resolvable : list ToolRequirement) (rtd : OrderedDict) q :
  NoDup (od_keys rtd) → od_keys rtd ⊆ resolvable →
  length rtd = length resolvable → q ∈ resolvable → q ∈ od_keys rtd.
Proof.
  intros Hnd Hsub Hlen Hq.
  assert (od_keys rtd ≡ₚ resolvable) as Hp.
  { apply submseteq_length_Permutation.
    - by apply NoDup_submseteq.
    - unfold od_keys. rewrite length_fmap. lia. }
  by rewrite Hp.
Qed.


Lemma first_answer_None kw i rs q :
  Forall (λ r, single_answer kw r q = None) rs → first_answer kw i rs q = None.
Proof.
  revert i. induction rs as [|r rs IH]; intros i Hf; simpl; [done|].
  apply Forall_cons in Hf as [-> Hf]. destruct (skipped_by_index kw i); auto.
Qed.

Lemma first_answer_accepted kw i rs q d :
  first_answer kw i rs q = Some d → ∃ r, r ∈ rs ∧ single_answer kw r q = Some d.
Proof.
  revert i. induction rs as [|r rs IH]; intros i; simpl; [done|].
  assert (first_answer kw (S i) rs q = Some d →
          ∃ r0, r0 ∈ r :: rs ∧ single_answer kw r0 q = Some d) as Hrec.
  { intros H. destruct (IH _ H) as (r0 & Hin & Hr0). exists r0.
    split; [by apply list_elem_of_further | done]. }
  destruct (skipped_by_index kw i); [done|].
  destruct (single_answer kw r q) eqn:E; [|done].
  intros [= ->]. exists r. split; [apply list_elem_of_here | done].
Qed.

Lemma walk_full kw resolvable i rs (rtd : OrderedDict) :
  length rtd = length resolvable →
  walk_resolvers kw resolvable i rs rtd = (Returned rtd, []).
Proof.
  intros Hlen. revert i. induction rs as [|r rs IH]; intros i; [done|].
  rewrite walk_resolvers_cons. destruct (skipped_by_index kw i); [apply IH|].
  apply Nat.eqb_eq in Hlen. by rewrite Hlen.
Qed.

Lemma walk_answers_when_bulk_silent kw resolvable rs q :
  q ∈ resolvable →
  ∀ i rtd out tr,
    NoDup (od_keys rtd) → od_keys rtd ⊆ resolvable →
    walk_resolvers kw resolvable i rs rtd = (out, tr) →
    (∀ k r f, rs !! k = Some r → resolve_all r = Some f →
              EvResolveAll (i + k) resolvable ∈ tr → f resolvable kw = []) →
    ∃ m, out = Returned m ∧
         od_get q m =
           match od_get q rtd with
           | Some d => Some d
           | None => first_answer kw i rs q
           end.
Proof.
  intros Hq. induction rs as [|r rs IH]; intros i rtd out tr Hnd Hsub.
  { intros [= <- <-] _. exists rtd. split; [done|]. simpl.
    by destruct (od_get q rtd). }
  rewrite walk_resolvers_cons. cbn [first_answer].
  destruct (skipped_by_index kw i).
  { intros Hw Hsilent. apply (IH (S i) rtd out tr Hnd Hsub Hw).
    intros k r0 f Hk Hf Hin. apply (Hsilent (S k) r0 f Hk Hf).
    by replace (i + S k)%nat with (S i + k)%nat by lia. }
  destruct (length rtd =? length resolvable)%nat eqn:Hlen.
  { intros [= <- <-] _. exists rtd. split; [done|]. apply Nat.eqb_eq in Hlen.
    pose proof (full_mapping _ _ _ Hnd Hsub Hlen Hq) as Hin.
    destruct (od_get q rtd) eqn:E; [done|]. by apply od_get_None in E. }
  cbv zeta.
  assert (Hind : ∀ asked rtd' t1 out' t2,
    resolve_individually kw i r resolvable rtd = (rtd', t1) →
    walk_resolvers kw resolvable (S i) rs rtd' = (out', t2) →
    (out', asked ++ t1 ++ t2) = (out, tr) →
    (∀ k r0 f, (r :: rs) !! k = Some r0 → resolve_all r0 = Some f →
               EvResolveAll (i + k) resolvable ∈ tr → f resolvable kw = []) →
    ∃ m, out = Returned m ∧
         od_get q m =
           match od_get q rtd with
           | Some d => Some d
           | None => match single_answer kw r q with
                     | Some d => Some d
                     | None => first_answer kw (S i) rs q
                     end
           end).
  { intros asked rtd' t1 out' t2 Hi Hw [= -> <-] Hsilent.
    destruct (resolve_individually_app _ _ _ _ _ _ _ Hi) as (b & Hm & Hs & Hndb & Hf).
    assert (NoDup (od_keys rtd')) as Hnd'.
    { subst rtd'. rewrite od_keys_app. apply NoDup_app. split_and!; [done| |done].
      intros x Hx Hxb. unfold od_keys in Hxb.
      apply list_elem_of_fmap in Hxb as (e & -> & He).
      eapply Forall_forall in Hf; [|exact He]. by destruct Hf. }
    assert (od_keys rtd' ⊆ resolvable) as Hsub'.
    { subst rtd'. rewrite od_keys_app. intros x [Hx|Hx]%elem_of_app; [auto|].
      by eapply elem_of_sublist. }
    destruct (IH (S i) rtd' out t2 Hnd' Hsub' Hw) as (m & -> & Hget).
    { intros k r0 f Hk Hf0 Hin. apply (Hsilent (S k) r0 f Hk Hf0).
      replace (i + S k)%nat with (S i + k)%nat by lia.
      rewrite !elem_of_app. auto. }
    exists m. split; [done|]. rewrite Hget.
    rewrite (resolve_individually_get _ _ _ _ _ _ _ q Hi).
    destruct (od_get q rtd); [done|]. rewrite decide_True by done.
    by destruct (single_answer kw r q). }
  destruct (bulk_answer kw resolvable r rtd) as [[|d ds]|] eqn:Hbe.
  - destruct (resolve_individually kw i r resolvable rtd) as [rtd' t1] eqn:Hi.
    destruct (walk_resolvers kw resolvable (S i) rs rtd') as [out' t2] eqn:Hw.
    intros Heq Hsilent. by eapply Hind.
  - apply bulk_answer_Some in Hbe as (-> & f & Hf & Hds).
    intros Heq Hsilent. exfalso.
    assert (f resolvable kw = []) as Hnil; [|by rewrite Hnil in Hds].
    apply (Hsilent 0 r f eq_refl Hf). rewrite Nat.add_0_r.
    destruct (length (d :: ds) =? length resolvable)%nat;
      injection Heq as _ <-; apply list_elem_of_here.
  - destruct (resolve_individually kw i r resolvable rtd) as [rtd' t1] eqn:Hi.
    destruct (walk_resolvers kw resolvable (S i) rs rtd') as [out' t2] eqn:Hw.
    intros Heq Hsilent. by eapply Hind.
Qed.

(** C7, as stated, fails through a bulk answer, which is stored without
    the [exact] test.  With [exact] set and no resolver giving an exact
    dependency: a resolver whose single answer is inexact, followed by a
    resolver whose bulk answer is inexact, leaves the requirement with an
    inexact entry; followed by a resolver whose bulk answer is too short,
    resolution raises. *)
Lemma exact_option_counterexample :
  let single := Ex.knows "samtools" false "galaxy_package" in
  dep_exact (answer Ex.kwds_exact single Ex.samtools) = false ∧
  dep_exact (answer Ex.kwds_exact Ex.inexact_bulk Ex.samtools) = false ∧
  dep_exact (answer Ex.kwds_exact Ex.inexact_short_bulk Ex.samtools) = false ∧
  Forall (λ d, dep_exact d = false)
    (Ex.inexact_dep <$> [Ex.samtools; Ex.bwa]) ∧
  _requirements_to_dependencies_dict [single; Ex.inexact_bulk] [Ex.samtools]
    Ex.kwds_exact
  = (Returned [(Ex.samtools, Ex.inexact_dep Ex.samtools)],
     [ev_resolve 0 Ex.samtools; EvResolveAll 1 [Ex.samtools]]) ∧
  dep_exact (Ex.inexact_dep Ex.samtools) = false ∧
  _requirements_to_dependencies_dict [single; Ex.inexact_short_bulk]
    [Ex.samtools; Ex.bwa] Ex.kwds_exact
  = (Raised AssertionError,
     [ev_resolve 0 Ex.samtools; ev_resolve 0 Ex.bwa;
      EvResolveAll 1 [Ex.samtools; Ex.bwa]]).
Proof. split_and!; try reflexivity. by repeat constructor. Qed.

(** C7, amended: with the [exact] option set, an answer of a single
    [resolve] that is not exact never becomes an entry: every entry of a
    returned mapping is exact, unless it is a member of a bulk answer.
    When every bulk call made during the walk is answered with nothing, a
    mapping is returned, and a resolvable requirement [A] has in it the
    answer of the first resolver whose single answer is exact (and not the
    sentinel): the non-exact answers before it are dropped without
    closing the requirement, and when every resolver answers inexactly
    there is no entry for [A] and no exception. *)
Theorem inexact_answers_discarded kw rs requirements out tr :
  kw_exact kw = true →
  _requirements_to_dependencies_dict rs requirements kw = (out, tr) →
  (∀ m, out = Returned m →
     Forall (λ e, dep_exact e.2 = true ∨
                  ∃ r bulk, r ∈ rs ∧ resolve_all r = Some bulk ∧
                            e.2 ∈ bulk (resolvable_requirements requirements) kw)
       m) ∧
  ((∀ k r f, rs !! k = Some r → resolve_all r = Some f →
             EvResolveAll k (resolvable_requirements requirements) ∈ tr →
             f (resolvable_requirements requirements) kw = []) →
   ∃ m, out = Returned m ∧
     ∀ A, A ∈ requirements → resolvable_type (req_type A) = true →
       od_get A m = first_answer kw 0 rs A ∧
       (∀ d, od_get A m = Some d → dep_exact d = true) ∧
       (Forall (λ r, dep_exact (answer kw r A) = false) rs → A ∉ od_keys m)).
Proof.
  intros Hex H. split.
  { intros m ->. destruct (walk_structure _ _ _ _ _ _ _ H) as (bs & -> & HF).
    simpl. apply Forall_forall. intros e He.
    apply list_elem_of_In, in_concat in He as (b & Hb & He).
    apply list_elem_of_In in Hb, He.
    apply list_elem_of_lookup in Hb as [k Hk].
    destruct (Forall2_lookup_l _ _ _ _ _ HF Hk) as (r & Hr & _ & Hfrom).
    eapply Forall_forall in Hfrom; [|exact He].
    destruct Hfrom as [Hsa|(bulk & Hbulk & Hin)].
    - left. apply single_answer_Some in Hsa as (_ & Hacc & ->).
      by eapply accepted_exact.
    - right. exists r, bulk. split_and!; [|done|done].
      apply list_elem_of_lookup. by exists k. }
  intros Hsilent.
  assert (Hwalk : ∀ A, A ∈ resolvable_requirements requirements →
            ∃ m, out = Returned m ∧ od_get A m = first_answer kw 0 rs A).
  { intros A HA.
    destruct (walk_answers_when_bulk_silent kw _ rs A HA 0 [] out tr)
      as (m & -> & Hget); [apply NoDup_nil_2|apply list_subseteq_nil|exact H| |].
    - intros k r f Hk Hf Hin. by apply (Hsilent k r f).
    - by exists m. }
  assert (∃ m, out = Returned m) as [m ->].
  { destruct (resolvable_requirements requirements) as [|A l] eqn:Hres.
    - unfold _requirements_to_dependencies_dict in H. rewrite Hres in H.
      rewrite walk_full in H by done. injection H as <- _. by exists [].
    - destruct (Hwalk A) as (m & -> & _); [apply list_elem_of_here|by exists m]. }
  exists m. split; [done|]. intros A HA Hty.
  assert (od_get A m = first_answer kw 0 rs A) as Hget.
  { destruct (Hwalk A) as (m' & [= <-] & Hget); [|done].
    by apply resolvable_requirements_elem. }
  split_and!; [done| |].
  - intros d Hd. rewrite Hget in Hd.
    apply first_answer_accepted in Hd as (r & _ & Hr).
    apply single_answer_Some in Hr as (_ & Hacc & ->).
    by eapply accepted_exact.
  - intros Hall. apply od_get_None. rewrite Hget. apply first_answer_None.
    eapply Forall_impl; [exact Hall|]. intros r Hr.
    destruct (single_answer kw r A) as [d|] eqn:E; [|done].
    apply single_answer_Some in E as (_ & Hacc & _).
    apply (accepted_exact _ _ Hex) in Hacc. congruence.
Qed.

Lemma inexact_answers_discarded_witness :
  let chain :=
    [Ex.knows "bwa" true "conda"; Ex.knows "samtools" false "galaxy_package";
     Ex.inexact_bulk; Ex.knows "samtools" true "conda"] in
  ∃ m, Returned [(Ex.bwa, Ex.conda_dep Ex.bwa);
                 (Ex.samtools, Ex.conda_dep Ex.samtools)] = Returned m ∧
    ∀ A, A ∈ [Ex.samtools; Ex.bwa] → resolvable_type (req_type A) = true →
      od_get A m = first_answer Ex.kwds_exact 0 chain A ∧
      (∀ d, od_get A m = Some d → dep_exact d = true) ∧
      (Forall (λ r, dep_exact (answer Ex.kwds_exact r A) = false) chain
       → A ∉ od_keys m).
Proof.
  refine (proj2 (inexact_answers_discarded Ex.kwds_exact
                   [Ex.knows "bwa" true "conda";
                    Ex.knows "samtools" false "galaxy_package";
                    Ex.inexact_bulk; Ex.knows "samtools" true "conda"]
                   [Ex.samtools; Ex.bwa] _
                   [ev_resolve 0 Ex.samtools; ev_resolve 0 Ex.bwa;
                    ev_resolve 1 Ex.samtools; ev_resolve 2 Ex.samtools;
                    ev_resolve 3 Ex.samtools]
                   eq_refl _) _).
  - vm_compute. reflexivity.
  - intros k r f _ _ Hin.
    repeat (apply elem_of_cons in Hin as [Hin|Hin]; [discriminate Hin|]).
    by apply elem_of_nil in Hin.
Defined.

(** ** Installation *)

(** C2, as stated, fails: when the first capable resolver fails, the
    second capable resolver is tried, and its success is returned. *)
Lemma install_all_counterexample :
  let chain := [Ex.installer false; Ex.installer true] in
  install_all chain [Ex.samtools] =
    (true, [EvGetTargets 0 [Ex.samtools]; EvInstallAll 0 ["samtools"];
            EvGetTargets 1 [Ex.samtools]; EvInstallAll 1 ["samtools"]]) ∧
  install_all_first_capable chain [Ex.samtools] = false.
Proof. split; reflexivity. Qed.

Lemma install_all_from_spec i0 rs requirements :
  ((install_all_from i0 rs requirements).1 = true ↔
     ∃ r, r ∈ rs ∧ installs r requirements = Some true) ∧
  (∀ i t, EvInstallAll i t ∈ (install_all_from i0 rs requirements).2 ↔
     ∃ k r gt inst,
       i = (i0 + k)%nat ∧ rs !! k = Some r ∧
       get_targets r = Some gt ∧ install_all_targets r = Some inst ∧
       t = gt requirements ∧
       ∀ j r', (j < k)%nat → rs !! j = Some r' →
               installs r' requirements ≠ Some true).
Proof.
  revert i0. induction rs as [|r rs IH]; intros i0.
  { simpl. split.
    - split; [done|]. intros (r & Hr & _). by apply elem_of_nil in Hr.
    - intros i t. rewrite elem_of_nil. split; [done|].
      by intros (k & r & gt & inst & _ & Hk & _). }
  destruct (IH (S i0)) as [IHb IHt]. clear IH.
  assert (Hlater : ∀ i t,
    (∃ k r0 gt inst, i = (S i0 + k)%nat ∧ rs !! k = Some r0 ∧
       get_targets r0 = Some gt ∧ install_all_targets r0 = Some inst ∧
       t = gt requirements ∧
       ∀ j r', (j < k)%nat → rs !! j = Some r' →
               installs r' requirements ≠ Some true) →
    installs r requirements ≠ Some true →
    ∃ k r0 gt inst, i = (i0 + k)%nat ∧ (r :: rs) !! k = Some r0 ∧
       get_targets r0 = Some gt ∧ install_all_targets r0 = Some inst ∧
       t = gt requirements ∧
       ∀ j r', (j < k)%nat → (r :: rs) !! j = Some r' →
               installs r' requirements ≠ Some true).
  { intros i t (k & r0 & gt & inst & -> & Hk & Hgt & Hinst & -> & Hbefore) Hr.
    exists (S k), r0, gt, inst. split_and!; [lia|done|done|done|done|].
    intros [|j] r' Hj Hr'; simpl in Hr'; [congruence|].
    apply (Hbefore j); [lia|done]. }
  assert (Hsucc : ∀ i t k r0 gt inst,
    i = (i0 + S k)%nat → (r :: rs) !! S k = Some r0 →
    get_targets r0 = Some gt → install_all_targets r0 = Some inst →
    t = gt requirements →
    (∀ j r', (j < S k)%nat → (r :: rs) !! j = Some r' →
             installs r' requirements ≠ Some true) →
    installs r requirements ≠ Some true ∧
    ∃ k' r1 gt' inst', i = (S i0 + k')%nat ∧ rs !! k' = Some r1 ∧
       get_targets r1 = Some gt' ∧ install_all_targets r1 = Some inst' ∧
       t = gt' requirements ∧
       ∀ j r', (j < k')%nat → rs !! j = Some r' →
               installs r' requirements ≠ Some true).
  { intros i t k r0 gt inst -> Hk Hgt Hinst -> Hbefore. split.
    - apply (Hbefore 0); [lia|done].
    - exists k, r0, gt, inst. split_and!; [lia|done|done|done|done|].
      intros j r' Hj Hr'. apply (Hbefore (S j)); [lia|done]. }
  cbn [install_all_from].
  destruct (installs r requirements) as [b|] eqn:Hins.
  - unfold installs in Hins.
    destruct (get_targets r) as [gt|] eqn:Hgt; [|done].
    destruct (install_all_targets r) as [inst|] eqn:Hinst; [|done].
    injection Hins as Hb. rewrite Hb.
    assert (Hhere : ∀ i t, i = i0 ∧ t = gt requirements →
      ∃ k r0 gt0 inst0, i = (i0 + k)%nat ∧ (r :: rs) !! k = Some r0 ∧
        get_targets r0 = Some gt0 ∧ install_all_targets r0 = Some inst0 ∧
        t = gt0 requirements ∧
        ∀ j r', (j < k)%nat → (r :: rs) !! j = Some r' →
                installs r' requirements ≠ Some true).
    { intros i t [-> ->]. exists 0, r, gt, inst.
      split_and!; [lia|done|done|done|done|]. intros j r' Hj. lia. }
    assert (Hins : installs r requirements = Some b).
    { unfold installs. by rewrite Hgt, Hinst, Hb. }
    destruct b.
    + simpl. split.
      * split; [|done]. intros _. exists r. split; [apply list_elem_of_here|done].
      * intros i t. rewrite !elem_of_cons, elem_of_nil. split.
        -- intros [?|[[= -> ->]|[]]]; [done|]. by apply Hhere.
        -- intros (k & r0 & gt0 & inst0 & Hi & Hk & Hgt0 & Hinst0 & Ht & Hbefore).
           destruct k as [|k].
           ++ simpl in Hk. injection Hk as <-. right. left.
              rewrite Hgt in Hgt0. injection Hgt0 as <-. subst.
              f_equal. lia.
           ++ destruct (Hsucc i t k r0 gt0 inst0 Hi Hk Hgt0 Hinst0 Ht Hbefore) as [Hn _].
              congruence.
    + destruct (install_all_from (S i0) rs requirements) as [b' tr'] eqn:Hrec.
      simpl in IHb, IHt. simpl. split.
      * rewrite IHb. split.
        -- intros (r0 & Hr0 & Hi). exists r0. split; [by apply list_elem_of_further|done].
        -- intros (r0 & [->|Hr0]%elem_of_cons & Hi); [congruence|]. by exists r0.
      * intros i t. rewrite !elem_of_cons. split.
        -- intros [?|[[= -> ->]|Hin]]; [done|by apply Hhere|].
           apply Hlater; [by apply IHt|congruence].
        -- intros (k & r0 & gt0 & inst0 & Hi & Hk & Hgt0 & Hinst0 & Ht & Hbefore).
           destruct k as [|k].
           ++ simpl in Hk. injection Hk as <-. right. left.
              rewrite Hgt in Hgt0. injection Hgt0 as <-. subst.
              f_equal. lia.
           ++ right. right. apply IHt.
              by destruct (Hsucc i t k r0 gt0 inst0 Hi Hk Hgt0 Hinst0 Ht Hbefore).
  - pose proof Hins as Hnone. unfold installs in Hins.
    destruct (get_targets r) as [gt|] eqn:Hgt,
             (install_all_targets r) as [inst|] eqn:Hinst; try done.
    all: split;
      [ rewrite IHb; split;
        [ intros (r0 & Hr0 & Hi); exists r0;
          split; [by apply list_elem_of_further|done]
        | intros (r0 & [->|Hr0]%elem_of_cons & Hi); [congruence|]; by exists r0 ]
      | intros i t; split;
        [ intros Hin; apply Hlater; [by apply IHt|congruence]
        | intros (k & r0 & gt0 & inst0 & Hi & Hk & Hgt0 & Hinst0 & Ht & Hbefore);
          destruct k as [|k];
          [ simpl in Hk; injection Hk as <-; congruence
          | apply IHt;
            by destruct (Hsucc i t k r0 gt0 inst0 Hi Hk Hgt0 Hinst0 Ht Hbefore) ] ] ].
Qed.

(** C2, amended: [install_all] tries the resolvers that have both
    capabilities one after the other, in chain order, until an
    installation succeeds.  It returns true exactly when some capable
    resolver of the chain installs successfully, and the installation is
    attempted with the resolver at position [i] exactly when that resolver
    is capable and no capable resolver before it has succeeded; in
    particular a failure of the first capable resolver is followed by an
    attempt with the next one, and nothing is attempted after a success. *)
Theorem install_all_until_success rs requirements :
  ((install_all rs requirements).1 = true ↔
     ∃ r, r ∈ rs ∧ installs r requirements = Some true) ∧
  (∀ i t, EvInstallAll i t ∈ (install_all rs requirements).2 ↔
     ∃ r gt inst,
       rs !! i = Some r ∧
       get_targets r = Some gt ∧ install_all_targets r = Some inst ∧
       t = gt requirements ∧
       ∀ j r', (j < i)%nat → rs !! j = Some r' →
               installs r' requirements ≠ Some true).
Proof.
  destruct (install_all_from_spec 0 rs requirements) as [Hb Ht].
  split; [exact Hb|]. intros i t. unfold install_all. rewrite Ht. split.
  - intros (k & r & gt & inst & -> & H). by exists r, gt, inst.
  - intros (r & gt & inst & H). by exists i, r, gt, inst.
Qed.

(** ** The order on the hashed tuples *)

#[global] Instance string_cmp_lawful : LawfulCmp String_as_OT.compare.
Proof.
  assert (Hirr : ∀ x, String_as_OT.compare x x ≠ Lt).
  { intros x Hx. by apply (irreflexivity String_as_OT.lt x). }
  assert (Htr : ∀ x y z, String_as_OT.compare x y = Lt →
                         String_as_OT.compare y z = Lt →
                         String_as_OT.compare x z = Lt).
  { intros x y z. apply (transitivity (R := String_as_OT.lt)). }
  split.
  - intros x y. split.
    + intros H. destruct (String_as_OT.compare_spec x y); done.
    + intros ->. destruct (String_as_OT.compare_spec y y) as [|H|H];
        [done|by apply Hirr in H..].
  - intros x y.
    destruct (String_as_OT.compare_spec x y) as [E1|H1|H1],
             (String_as_OT.compare_spec y x) as [E2|H2|H2];
      simpl; try done; exfalso;
      unfold String_as_OT.lt, String_as_OT.eq in *.
    all: try (subst; eapply Hirr; eassumption).
    all: eapply Hirr; eapply Htr; eassumption.
  - exact Htr.
Qed.

#[global] Instance bool_cmp_lawful : LawfulCmp cmp_bool.
Proof.
  split.
  - by intros [] [].
  - by intros [] [].
  - by intros [] [] [].
Qed.

#[global] Instance option_cmp_lawful {A} (cmp : A → A → comparison) :
  LawfulCmp cmp → LawfulCmp (cmp_option cmp).
Proof.
  intros L. split.
  - intros [x|] [y|]; simpl; try done. rewrite cmp_eq. naive_solver.
  - intros [x|] [y|]; simpl; try done. apply cmp_opp.
  - intros [x|] [y|] [z|]; simpl; try done. apply cmp_lt_trans.
Qed.

#[global] Instance pair_cmp_lawful {A B} (cmpA : A → A → comparison)
    (cmpB : B → B → comparison) :
  LawfulCmp cmpA → LawfulCmp cmpB → LawfulCmp (cmp_pair cmpA cmpB).
Proof.
  intros LA LB.
  assert (Hrefl : ∀ a, cmpA a a = Eq) by (intros a; by apply cmp_eq).
  split.
  - intros [a1 b1] [a2 b2]. unfold cmp_pair. simpl.
    destruct (cmpA a1 a2) eqn:E.
    + apply cmp_eq in E as ->. rewrite cmp_eq. naive_solver.
    + split; [done|]. intros [= -> _]. by rewrite Hrefl in E.
    + split; [done|]. intros [= -> _]. by rewrite Hrefl in E.
  - intros [a1 b1] [a2 b2]. unfold cmp_pair. simpl.
    rewrite (cmp_opp a1 a2). destruct (cmpA a1 a2); simpl; [|done..].
    apply cmp_opp.
  - intros [a1 b1] [a2 b2] [a3 b3]. unfold cmp_pair. simpl.
    destruct (cmpA a1 a2) eqn:E12; [|clear LB|done];
      (destruct (cmpA a2 a3) eqn:E23; [| |done]).
    + apply cmp_eq in E12 as ->. apply cmp_eq in E23 as ->.
      rewrite Hrefl. apply cmp_lt_trans.
    + apply cmp_eq in E12 as ->. by rewrite E23.
    + apply cmp_eq in E23 as ->. by rewrite E12.
    + by rewrite (cmp_lt_trans _ _ _ E12 E23).
Qed.

#[global] Instance tuple_cmp_lawful : LawfulCmp cmp_tuple.
Proof. unfold cmp_tuple. apply _. Qed.

#[global] Instance tuple_le_total : Total tuple_le.
Proof.
  intros x y. unfold tuple_le. rewrite (cmp_opp (cmp := cmp_tuple) x y).
  destruct (cmp_tuple x y); simpl; auto.
Qed.

#[global] Instance tuple_le_trans : Transitive tuple_le.
Proof.
  intros x y z. unfold tuple_le.
  destruct (cmp_tuple x y) eqn:Hxy; [| |done].
  - apply (cmp_eq (cmp := cmp_tuple)) in Hxy as ->. done.
  - intros _. destruct (cmp_tuple y z) eqn:Hyz; [| |done].
    + apply (cmp_eq (cmp := cmp_tuple)) in Hyz as ->. by rewrite Hxy.
    + by rewrite (cmp_lt_trans (cmp := cmp_tuple) _ _ _ Hxy Hyz).
Qed.

#[global] Instance tuple_le_antisym : AntiSymm (=) tuple_le.
Proof.
  intros x y. unfold tuple_le. rewrite (cmp_opp (cmp := cmp_tuple) x y).
  destruct (cmp_tuple x y) eqn:Hxy; simpl; [|done..].
  intros _ _. by apply (cmp_eq (cmp := cmp_tuple)).
Qed.

(** Sorting forgets the order of the input. *)
Lemma sorted_Permutation (l l' : list DepTuple) :
  l ≡ₚ l' → sorted l = sorted l'.
Proof.
  intros Hp. unfold sorted. apply (Sorted_unique tuple_le).
  - apply Sorted_merge_sort; apply _.
  - apply Sorted_merge_sort; apply _.
  - by rewrite !merge_sort_Permutation.
Qed.

(** The first eight characters of the digest are the first state word. *)
Lemma hash_dependencies_hex8 l :
  hash_dependencies l =
  hex8 (h0 (sha1 (bytes_of_string (json_dumps (sorted (dep_tuple <$> l)))))).
Proof.
  unfold hash_dependencies, new_secure_hash, sha1_hexdigest.
  generalize (sha1 (bytes_of_string (json_dumps (sorted (dep_tuple <$> l))))).
  intros st. reflexivity.
Qed.

(** ** The cache hash *)

Lemma hash_dependencies_tuples l l' :
  dep_tuple <$> l ≡ₚ dep_tuple <$> l' →
  hash_dependencies l = hash_dependencies l'.
Proof.
  intros Hp. unfold hash_dependencies. cbv zeta.
  by rewrite (sorted_Permutation _ _ Hp).
Qed.

(** C5: the hash of a list of dependencies is the same for every
    permutation of the list, it has eight characters, it is the same for
    two lists that carry the same (name, version, exact, dependency_type)
    tuples, and there are two lists that differ in the version of one
    dependency only and have different hashes. *)
Theorem hash_dependencies_order_independent :
  (∀ l l', l ≡ₚ l' → hash_dependencies l = hash_dependencies l') ∧
  (∀ l, String.length (hash_dependencies l) = 8) ∧
  (∀ l l', dep_tuple <$> l ≡ₚ dep_tuple <$> l' →
           hash_dependencies l = hash_dependencies l') ∧
  (∃ n v v' e t c msg,
     v ≠ v' ∧
     hash_dependencies [ResolvedDependency n v e t c msg]
     ≠ hash_dependencies [ResolvedDependency n v' e t c msg]).
Proof.
  split_and!.
  - intros l l' Hp. apply hash_dependencies_tuples. by rewrite Hp.
  - intros l. rewrite hash_dependencies_hex8.
    generalize (h0 (sha1 (bytes_of_string (json_dumps (sorted (dep_tuple <$> l)))))).
    intros w. reflexivity.
  - exact hash_dependencies_tuples.
  - exists "samtools", (Some "1.3"), (Some "1.4"), true, "conda", true, "found".
    split; [done|]. vm_compute. discriminate.
Qed.

Lemma hash_dependencies_order_independent_witness :
  hash_dependencies [Ex.conda_dep Ex.samtools; Ex.conda_dep Ex.bwa]
  = hash_dependencies [Ex.conda_dep Ex.bwa; Ex.conda_dep Ex.samtools].
Proof.
  apply (proj1 hash_dependencies_order_independent). apply perm_swap.
Defined.

(** C4, as stated, fails: [hash_dependencies] hashes the list as it is;
    a dependency that is not cacheable changes the hash. *)
Lemma hash_filter_counterexample :
  dep_cacheable Ex.non_cacheable = false ∧
  hash_dependencies [Ex.non_cacheable] = "95557a5f" ∧
  hash_dependencies (List.filter dep_cacheable [Ex.non_cacheable]) = "97d170e1" ∧
  hash_dependencies [Ex.non_cacheable]
  ≠ hash_dependencies (List.filter dep_cacheable [Ex.non_cacheable]).
Proof. split_and!; [reflexivity|vm_compute; reflexivity..|vm_compute; discriminate]. Qed.

(** ** The cache directory *)

Lemma filter_all_cacheable (l : list Dependency) :
  Forall (λ d, dep_cacheable d = true) l → List.filter dep_cacheable l = l.
Proof.
  induction 1 as [|d l Hd _ IH]; simpl; [done|]. by rewrite Hd, IH.
Qed.

Lemma build_each_trace `{FileSystem FS} deps dir (fs : FS) :
  Forall (λ e, ∃ d, e = EvBuildCache d dir ∧ d ∈ deps) (build_each deps dir fs).2.
Proof.
  revert fs. induction deps as [|d deps IH]; intros fs; simpl; [constructor|].
  assert (Hlater : ∀ tr,
    Forall (λ e, ∃ d0, e = EvBuildCache d0 dir ∧ d0 ∈ deps) tr →
    Forall (λ e, ∃ d0, e = EvBuildCache d0 dir ∧ d0 ∈ d :: deps) tr).
  { intros tr Htr. eapply Forall_impl; [exact Htr|]. intros e (d0 & -> & Hd0).
    exists d0. split; [done|]. by apply list_elem_of_further. }
  assert (Hhere : ∃ d0, EvBuildCache d dir = EvBuildCache d0 dir ∧ d0 ∈ d :: deps).
  { exists d. split; [done|]. apply list_elem_of_here. }
  destruct (dep_build_cache d dir fs) as [fs' [e|]].
  - simpl. by repeat constructor.
  - specialize (IH fs'). destruct (build_each deps dir fs') as [[out fs''] tr].
    simpl in *. constructor; [done|]. by apply Hlater.
Qed.

(** C4, amended: [hash_dependencies] hashes every dependency it is given;
    it agrees with the hash of the cacheable part of a list when the whole
    list is cacheable.  The restriction to cacheable dependencies is made
    by the caller: after resolution, [build_cache] only deletes, and only
    builds into, the directory named by the hash of the cacheable resolved
    dependencies, and only cacheable resolved dependencies are
    materialized. *)
Theorem cache_directory_of_cacheable_subset `{FileSystem FS}
    cache_dir rs requirements kw (fs : FS) resolved tr0 :
  requirements_to_dependencies rs requirements kw = (Returned resolved, tr0) →
  (∀ l, Forall (λ d, dep_cacheable d = true) l →
        hash_dependencies l = hash_dependencies (List.filter dep_cacheable l)) ∧
  ∃ out fs' tr',
    build_cache cache_dir rs requirements kw fs = (out, fs', tr0 ++ tr') ∧
    Forall (λ e,
        let dir :=
          abspath_join cache_dir
            (hash_dependencies (List.filter dep_cacheable (od_values resolved))) in
        e = EvRmtree dir ∨
        ∃ d, e = EvBuildCache d dir ∧ dep_cacheable d = true
             ∧ d ∈ od_values resolved) tr'.
Proof.
  intros Hres. split.
  { intros l Hl. by rewrite filter_all_cacheable. }
  unfold build_cache. rewrite Hres. cbv zeta.
  unfold get_hashed_dependencies_path, cacheable_dependencies.
  set (deps := List.filter dep_cacheable (od_values resolved)).
  set (dir := abspath_join cache_dir (hash_dependencies deps)).
  assert (Hbuild : ∀ fs0 : FS,
    Forall (λ e, e = EvRmtree dir ∨
                 ∃ d, e = EvBuildCache d dir ∧ dep_cacheable d = true
                      ∧ d ∈ od_values resolved) (build_each deps dir fs0).2).
  { intros fs0. eapply Forall_impl; [apply build_each_trace|].
    intros e (d & -> & Hd). right. exists d. split; [done|].
    apply list_elem_of_In, filter_In in Hd as [Hd Hc].
    split; [done|]. by apply list_elem_of_In. }
  destruct (path_exists dir fs).
  - destruct (kw_force_rebuild kw).
    + destruct (rmtree dir fs) as [fs' [e|]].
      * eexists _, _, _. split; [done|]. constructor; [by left|constructor].
      * specialize (Hbuild fs').
        destruct (build_each deps dir fs') as [[out fs''] tr'].
        eexists _, _, _. split; [done|]. constructor; [by left|done].
    + exists (Returned tt), fs, []. rewrite app_nil_r. split; [done|constructor].
  - specialize (Hbuild fs).
    destruct (build_each deps dir fs) as [[out fs'] tr'].
    eexists _, _, _. split; [done|done].
Qed.

Lemma cache_directory_of_cacheable_subset_witness :
  ∃ out fs' tr',
    build_cache "/cache" [Ex.knows "samtools" true "conda"; Ex.knows "bwa" true "conda"]
      [Ex.samtools; Ex.bwa] Ex.kwds ([] : DirTable)
    = (out, fs', [ev_resolve 0 Ex.samtools; ev_resolve 0 Ex.bwa; ev_resolve 1 Ex.bwa] ++ tr') ∧
    tr' ≠ [].
Proof.
  destruct (cache_directory_of_cacheable_subset (FS := DirTable) "/cache"
              [Ex.knows "samtools" true "conda"; Ex.knows "bwa" true "conda"]
              [Ex.samtools; Ex.bwa] Ex.kwds [] _ _ eq_refl)
    as [_ (out & fs' & tr' & Hb & _)].
  exists out, fs', tr'. split; [exact Hb|].
  intros ->. vm_compute in Hb. discriminate Hb.
Defined.

(** C9: when the directory named by the hash of the cacheable resolved
    dependencies exists and [force_rebuild] is not set, [build_cache]
    returns with the file system as it found it, having made no call to
    [rmtree] and no call to the [build_cache] of a dependency.  A second
    call after a build therefore leaves what the first call wrote. *)
Theorem existing_cache_is_kept `{FileSystem FS}
    cache_dir rs requirements kw (fs : FS) resolved tr0 :
  requirements_to_dependencies rs requirements kw = (Returned resolved, tr0) →
  kw_force_rebuild kw = false →
  path_exists
    (get_hashed_dependencies_path cache_dir (cacheable_dependencies resolved))
    fs = true →
  build_cache cache_dir rs requirements kw fs = (Returned tt, fs, tr0) ∧
  Forall (λ e, ∀ p, e ≠ EvRmtree p ∧ ∀ d, e ≠ EvBuildCache d p) tr0.
Proof.
  intros Hres Hforce Hex. split.
  - unfold build_cache. rewrite Hres. cbv zeta. by rewrite Hex, Hforce.
  - eapply Forall_impl; [exact (walk_trace _ _ _ _ _ _ _ Hres)|].
    intros e (j & _ & Hj & _) p. by destruct e.
Qed.

Lemma existing_cache_is_kept_witness :
  let first :=
    build_cache "/cache" [Ex.bulk] [Ex.samtools] Ex.kwds ([] : DirTable) in
  first.1.2 = [("/cache/48a96fc3", [Ex.conda_dep Ex.samtools])] ∧
  build_cache "/cache" [Ex.bulk] [Ex.samtools] Ex.kwds first.1.2
  = (Returned tt, first.1.2, [EvResolveAll 0 [Ex.samtools]]).
Proof.
  split; [vm_compute; reflexivity|].
  refine (proj1 (existing_cache_is_kept (FS := DirTable) "/cache" [Ex.bulk]
                   [Ex.samtools] Ex.kwds _ _ _ _ eq_refl _)).
  - vm_compute. reflexivity.
  - vm_compute. reflexivity.
Defined.


(** * Further properties of the module *)

(** ** Edges of the resolution *)

(** When no requirement of the list has the type 'package' or
    'set_environment' (the empty list included), the empty mapping is
    returned and no resolver is called, whatever the chain and the
    options: the walk stops at the completeness test of line 151. *)
Theorem nothing_to_resolve rs requirements kw :
  Forall (λ q, resolvable_type (req_type q) = false) requirements →
  _requirements_to_dependencies_dict rs requirements kw = (Returned [], []).
Proof.
  intros Hall. unfold _requirements_to_dependencies_dict.
  assert (resolvable_requirements requirements = []) as ->.
  { induction Hall as [|q qs Hq _ IH]; simpl; [done|]. by rewrite Hq. }
  by apply walk_full.
Qed.

Lemma nothing_to_resolve_witness :
  _requirements_to_dependencies_dict [Ex.short_bulk; Ex.empty_bulk]
    [Ex.binary] Ex.kwds = (Returned [], []).
Proof. apply nothing_to_resolve. by repeat constructor. Defined.

Lemma walk_past_index kw resolvable k i rs (rtd : OrderedDict) :
  kw_index kw = Some k → (k < i)%nat →
  walk_resolvers kw resolvable i rs rtd = (Returned rtd, []).
Proof.
  intros Hk. revert i. induction rs as [|r rs IH]; intros i Hlt; [done|].
  rewrite walk_resolvers_cons.
  assert (skipped_by_index kw i = true) as ->.
  { unfold skipped_by_index. rewrite Hk. apply negb_true_iff, Nat.eqb_neq. lia. }
  apply IH. lia.
Qed.

Lemma walk_to_index kw resolvable k i rs (rtd : OrderedDict) :
  kw_index kw = Some k → (i ≤ k)%nat →
  walk_resolvers kw resolvable i rs rtd =
  walk_resolvers kw resolvable k
    (match rs !! (k - i)%nat with Some r => [r] | None => [] end) rtd.
Proof.
  intros Hk. revert i. induction rs as [|r rs IH]; intros i Hle; [done|].
  destruct (decide (i = k)) as [->|Hne].
  - replace (k - k)%nat with 0%nat by lia. cbn [lookup list_lookup].
    rewrite !walk_resolvers_cons.
    destruct (skipped_by_index kw k); [by rewrite walk_past_index with (k := k) by (done || lia)|].
    destruct (length rtd =? length resolvable)%nat; [done|]. cbv zeta.
    destruct (bulk_answer kw resolvable r rtd) as [[|d ds]|]; try done.
    all: destruct (resolve_individually kw k r resolvable rtd) as [rtd' tr1].
    all: by rewrite (walk_past_index kw resolvable k (S k) rs rtd') by (done || lia).
  - rewrite walk_resolvers_cons.
    assert (skipped_by_index kw i = true) as ->.
    { unfold skipped_by_index. rewrite Hk. by apply negb_true_iff, Nat.eqb_neq. }
    rewrite IH by lia. replace (k - i)%nat with (S (k - S i)) by lia. done.
Qed.

(** With the option [index] set to [k], resolution is what the resolver
    at position [k] does alone (mapping and calls, the calls tagged with
    [k]); every other resolver is passed over.  When the chain has no
    resolver at position [k], the mapping is empty and nothing is
    called. *)
Theorem index_selects_one_resolver rs requirements kw k :
  kw_index kw = Some k →
  _requirements_to_dependencies_dict rs requirements kw =
    walk_resolvers kw (resolvable_requirements requirements) k
      (match rs !! k with Some r => [r] | None => [] end) [] ∧
  ((length rs ≤ k)%nat →
   _requirements_to_dependencies_dict rs requirements kw = (Returned [], [])) ∧
  Forall (λ e, ev_index e = Some k)
    (_requirements_to_dependencies_dict rs requirements kw).2.
Proof.
  intros Hk.
  assert (Heq : _requirements_to_dependencies_dict rs requirements kw =
    walk_resolvers kw (resolvable_requirements requirements) k
      (match rs !! k with Some r => [r] | None => [] end) []).
  { unfold _requirements_to_dependencies_dict.
    rewrite (walk_to_index _ _ k 0) by (done || lia).
    by replace (k - 0)%nat with k by lia. }
  split_and!; [done| |].
  - intros Hlen. rewrite Heq. by rewrite lookup_ge_None_2 by lia.
  - rewrite Heq. destruct (rs !! k) as [r|]; [|constructor].
    rewrite walk_resolvers_cons.
    destruct (skipped_by_index kw k); [constructor|].
    destruct (length _ =? length _)%nat; [constructor|]. cbv zeta.
    set (resolvable := resolvable_requirements requirements).
    assert (Hasked : Forall (λ e, ev_index e = Some k)
              (asked_in_bulk k resolvable (bulk_answer kw resolvable r []))).
    { destruct (bulk_answer kw resolvable r []); repeat constructor. }
    assert (Hind : ∀ rtd' tr1,
      resolve_individually kw k r resolvable [] = (rtd', tr1) →
      Forall (λ e, ev_index e = Some k)
        (asked_in_bulk k resolvable (bulk_answer kw resolvable r []) ++ tr1 ++ [])).
    { intros rtd' tr1 Hi. rewrite app_nil_r, Forall_app. split; [done|].
      eapply Forall_impl; [exact (resolve_individually_trace _ _ _ _ _ _ _ Hi)|].
      intros e (q & -> & _). by destruct q. }
    destruct (bulk_answer kw resolvable r []) as [[|d ds]|].
    + destruct (resolve_individually kw k r resolvable []) as [rtd' tr1] eqn:Hi.
      simpl. by apply (Hind rtd').
    + by destruct (length (d :: ds) =? length resolvable)%nat.
    + destruct (resolve_individually kw k r resolvable []) as [rtd' tr1] eqn:Hi.
      simpl. by apply (Hind rtd').
Qed.

Lemma index_selects_one_resolver_witness :
  _requirements_to_dependencies_dict
    [Ex.knows "samtools" false "galaxy_package"; Ex.knows "samtools" true "conda"]
    [Ex.samtools] (mkKwds (Some 1) false false [])
  = (Returned [(Ex.samtools, Ex.conda_dep Ex.samtools)], [ev_resolve 1 Ex.samtools]).
Proof.
  rewrite (proj1 (index_selects_one_resolver
                    [Ex.knows "samtools" false "galaxy_package";
                     Ex.knows "samtools" true "conda"]
                    [Ex.samtools] (mkKwds (Some 1) false false []) 1 eq_refl)).
  vm_compute. reflexivity.
Defined.

Lemma walk_complete_app kw resolvable rs2 rs1 :
  ∀ i rtd m1 tr1,
    walk_resolvers kw resolvable i rs1 rtd = (Returned m1, tr1) →
    length m1 = length resolvable →
    walk_resolvers kw resolvable i (rs1 ++ rs2) rtd = (Returned m1, tr1).
Proof.
  induction rs1 as [|r rs1 IH]; intros i rtd m1 tr1.
  { intros [= <- <-] Hlen. by apply walk_full. }
  rewrite <- app_comm_cons, !walk_resolvers_cons.
  destruct (skipped_by_index kw i); [apply IH|].
  destruct (length rtd =? length resolvable)%nat; [done|]. cbv zeta.
  destruct (bulk_answer kw resolvable r rtd) as [[|d ds]|]; try done.
  all: destruct (resolve_individually kw i r resolvable rtd) as [rtd' t1].
  all: destruct (walk_resolvers kw resolvable (S i) rs1 rtd') as [out t2] eqn:Hw.
  all: intros [= -> <-] Hlen; by rewrite (IH _ _ _ _ Hw Hlen).
Qed.

(** Once every resolvable requirement has an entry, the walk is over: if
    the resolvers [rs1] give a mapping with as many entries as there are
    resolvable requirements, then whatever resolvers follow them in the
    chain are never called, and the mapping and the calls are those of
    [rs1]. *)
Theorem complete_mapping_ends_walk kw requirements rs1 rs2 m1 tr1 :
  _requirements_to_dependencies_dict rs1 requirements kw = (Returned m1, tr1) →
  length m1 = length (resolvable_requirements requirements) →
  _requirements_to_dependencies_dict (rs1 ++ rs2) requirements kw
  = (Returned m1, tr1).
Proof. apply walk_complete_app. Qed.

Lemma complete_mapping_ends_walk_witness :
  _requirements_to_dependencies_dict
    ([Ex.knows "samtools" true "conda"] ++ [Ex.short_bulk; Ex.empty_bulk])
    [Ex.samtools; Ex.binary] Ex.kwds
  = (Returned [(Ex.samtools, Ex.conda_dep Ex.samtools)], [ev_resolve 0 Ex.samtools]).
Proof.
  apply (complete_mapping_ends_walk Ex.kwds [Ex.samtools; Ex.binary]
           [Ex.knows "samtools" true "conda"] [Ex.short_bulk; Ex.empty_bulk]).
  - vm_compute. reflexivity.
  - reflexivity.
Defined.

(** ** Which requirements are resolved, and by whom *)

Lemma od_set_keys_NoDup k v (m : OrderedDict) :
  NoDup (od_keys m) → NoDup (od_keys (od_set k v m)).
Proof.
  intros Hnd. destruct (decide (k ∈ od_keys m)) as [Hin|Hn].
  - by rewrite od_set_present.
  - rewrite od_set_absent, od_keys_app by done. apply NoDup_app.
    split_and!; [done| |apply NoDup_singleton].
    intros x Hx ->%list_elem_of_singleton. done.
Qed.

Lemma zip_into_keys_NoDup qs ds (rtd : OrderedDict) :
  NoDup (od_keys rtd) → NoDup (od_keys (zip_into qs ds rtd)).
Proof.
  revert ds rtd. induction qs as [|q qs IH]; intros [|d ds] rtd Hnd; simpl;
    try done.
  by apply IH, od_set_keys_NoDup.
Qed.

Lemma walk_keys_NoDup kw resolvable rs :
  ∀ i rtd m tr,
    NoDup (od_keys rtd) →
    walk_resolvers kw resolvable i rs rtd = (Returned m, tr) →
    NoDup (od_keys m).
Proof.
  induction rs as [|r rs IH]; intros i rtd m tr Hnd.
  { by intros [= <- <-]. }
  rewrite walk_resolvers_cons.
  destruct (skipped_by_index kw i); [by apply IH|].
  destruct (length rtd =? length resolvable)%nat; [by intros [= <- <-]|].
  cbv zeta.
  assert (Hind : ∀ rtd' t1,
    resolve_individually kw i r resolvable rtd = (rtd', t1) →
    NoDup (od_keys rtd')).
  { intros rtd' t1 Hi.
    destruct (resolve_individually_app _ _ _ _ _ _ _ Hi) as (b & -> & _ & Hb & Hf).
    rewrite od_keys_app. apply NoDup_app. split_and!; [done| |done].
    intros x Hx Hxb. unfold od_keys in Hxb.
    apply list_elem_of_fmap in Hxb as (e & -> & He).
    eapply Forall_forall in Hf; [|exact He]. by destruct Hf. }
  destruct (bulk_answer kw resolvable r rtd) as [[|d ds]|].
  2: { destruct (length (d :: ds) =? length resolvable)%nat; [|done].
       intros [= <- <-]. by apply zip_into_keys_NoDup. }
  all: destruct (resolve_individually kw i r resolvable rtd) as [rtd' t1] eqn:Hi.
  all: destruct (walk_resolvers kw resolvable (S i) rs rtd') as [out t2] eqn:Hw.
  all: intros [= -> <-]; eapply IH; [|exact Hw]; by eapply Hind.
Qed.




(** ** Looking up one dependency *)

Lemma walk_keys_resolvable kw resolvable i rs m tr :
  walk_resolvers kw resolvable i rs [] = (Returned m, tr) →
  Forall (λ e, e.1 ∈ resolvable ∧ ∃ r, r ∈ rs ∧ from_resolver kw resolvable r e) m.
Proof.
  intros H. destruct (walk_structure _ _ _ _ _ _ _ H) as (bs & -> & HF).
  simpl. apply Forall_forall. intros e He.
  apply list_elem_of_In, in_concat in He as (b & Hb & He).
  apply list_elem_of_In in Hb, He.
  apply list_elem_of_lookup in Hb as [k Hk].
  destruct (Forall2_lookup_l _ _ _ _ _ HF Hk) as (r & Hr & Hs & Hfrom).
  split.
  - eapply elem_of_sublist; [|exact Hs].
    unfold od_keys. apply list_elem_of_fmap. by exists e.
  - exists r. split; [apply list_elem_of_lookup; by exists k|].
    by eapply Forall_forall in Hfrom.
Qed.

Lemma one_key_mapping kw rs q m tr :
  walk_resolvers kw (resolvable_requirements [q]) 0 rs [] = (Returned m, tr) →
  m = [] ∨ ∃ d, m = [(q, d)].
Proof.
  intros H.
  assert (NoDup (od_keys m)) as Hnd.
  { eapply (walk_keys_NoDup _ _ _ _ []); [apply NoDup_nil_2|exact H]. }
  pose proof (walk_keys_resolvable _ _ _ _ _ _ H) as Hk.
  assert (Hq : Forall (λ e, e.1 = q) m).
  { eapply Forall_impl; [exact Hk|]. intros e [He _].
    apply resolvable_requirements_elem in He as [He _].
    by apply list_elem_of_singleton in He. }
  destruct m as [|[q1 d1] [|[q2 d2] m]]; [by left|right..].
  - apply Forall_cons in Hq as [Hq1 _]. simpl in Hq1. subst. by exists d1.
  - apply Forall_cons in Hq as [Hq1 Hq]. apply Forall_cons in Hq as [Hq2 _].
    simpl in *. subst. unfold od_keys in Hnd. simpl in Hnd.
    apply NoDup_cons in Hnd as [Hn _]. exfalso. apply Hn, list_elem_of_here.
Qed.

(** The mapping computed for a single requirement, as [find_dep] does at
    line 189, is empty or has exactly one entry, the entry of that
    requirement: the value [find_dep] picks with [values()[0]] is the only
    one there is. *)
Theorem single_requirement_single_entry rs q kw m tr :
  _requirements_to_dependencies_dict rs [q] kw = (Returned m, tr) →
  m = [] ∨ ∃ d, m = [(q, d)].
Proof.
  unfold _requirements_to_dependencies_dict. intros H.
  destruct (one_key_mapping _ _ _ _ _ H) as [->|[d ->]]; [by left|right].
  by exists d.
Qed.

Lemma single_requirement_single_entry_witness :
  [(Ex.samtools, Ex.conda_dep Ex.samtools)] = []
  ∨ ∃ d, [(Ex.samtools, Ex.conda_dep Ex.samtools)] = [(Ex.samtools, d)].
Proof.
  apply (single_requirement_single_entry [Ex.empty_bulk; Ex.bulk] Ex.samtools
           Ex.kwds _ [EvResolveAll 0 [Ex.samtools]; ev_resolve 0 Ex.samtools]).
  vm_compute. reflexivity.
Defined.

(** [find_dep] on a type other than 'package' and 'set_environment' gives
    the sentinel carrying the name and version asked for, without calling
    any resolver. *)
Theorem find_dep_unresolvable_type rs name version type kw :
  resolvable_type type = false →
  find_dep rs name version type kw = (Returned (NullDependency name version), []).
Proof.
  intros Hty. unfold find_dep, _requirements_to_dependencies_dict. cbv zeta.
  cbn [resolvable_requirements req_type]. rewrite Hty.
  by rewrite walk_full.
Qed.

Lemma find_dep_unresolvable_type_witness :
  find_dep [Ex.short_bulk; Ex.bulk] "blast" None "binary" Ex.kwds
  = (Returned (NullDependency "blast" None), []).
Proof. by apply find_dep_unresolvable_type. Defined.

(** What [find_dep] returns, when it returns: the sentinel carrying the
    name and version asked for, or a dependency contributed by a resolver
    of the chain for exactly the requirement asked for (its kept single
    answer, or a member of its bulk answer).  With [exact] set and no bulk
    answers the result is exact or the sentinel. *)
Theorem find_dep_result rs name version type kw d tr :
  find_dep rs name version type kw = (Returned d, tr) →
  let q := mkRequirement name version type in
  (d = NullDependency name version ∨
   ∃ r, r ∈ rs ∧ from_resolver kw [q] r (q, d)) ∧
  (kw_exact kw = true → Forall (no_bulk_answer kw [q]) rs →
   d = NullDependency name version ∨ dep_exact d = true).
Proof.
  unfold find_dep. cbv zeta.
  destruct (_requirements_to_dependencies_dict rs _ kw) as [[m|e] tr0] eqn:H;
    [|done].
  destruct (one_key_mapping _ _ _ _ _ H) as [->|[d0 ->]].
  { intros [= <- <-]. split; [by left|]. intros _ _. by left. }
  simpl. intros [= <- <-].
  pose proof (walk_keys_resolvable _ _ _ _ _ _ H) as Hk.
  apply Forall_cons in Hk as [[Hq (r & Hr & Hfrom)] _]. cbn [fst] in Hq.
  assert (resolvable_requirements [mkRequirement name version type]
          = [mkRequirement name version type]) as Hres.
  { apply resolvable_requirements_elem in Hq as [_ Hty].
    cbn [resolvable_requirements]. by rewrite Hty. }
  rewrite Hres in Hfrom.
  assert (Hright : ∃ r0, r0 ∈ rs ∧
            from_resolver kw [mkRequirement name version type] r0
              (mkRequirement name version type, d0)) by eauto.
  split; [by right|]. intros Hex Hnb. right.
  destruct Hfrom as [Hsa|(f & Hf & Hin)].
  - simpl in Hsa. apply single_answer_Some in Hsa as (_ & Hacc & ->).
    by eapply accepted_exact.
  - eapply Forall_forall in Hnb; [|exact Hr]. unfold no_bulk_answer in Hnb.
    rewrite Hf in Hnb. simpl in Hin. rewrite Hnb in Hin.
    by apply elem_of_nil in Hin.
Qed.

Lemma find_dep_result_witness :
  find_dep [Ex.knows "samtools" false "galaxy_package"; Ex.knows "samtools" true "conda"]
    "samtools" (Some "1.3") "package" Ex.kwds_exact
  = (Returned (Ex.conda_dep Ex.samtools),
     [ev_resolve 0 Ex.samtools; ev_resolve 1 Ex.samtools]) ∧
  (Ex.conda_dep Ex.samtools = NullDependency "samtools" (Some "1.3")
   ∨ dep_exact (Ex.conda_dep Ex.samtools) = true).
Proof.
  split; [vm_compute; reflexivity|].
  refine (proj2 (find_dep_result
                   [Ex.knows "samtools" false "galaxy_package";
                    Ex.knows "samtools" true "conda"]
                   "samtools" (Some "1.3") "package" Ex.kwds_exact _
                   [ev_resolve 0 Ex.samtools; ev_resolve 1 Ex.samtools] _) eq_refl _).
  - vm_compute. reflexivity.
  - repeat constructor.
Defined.

(** A manager without resolvers answers as [NullDependencyManager] does:
    [find_dep] gives the same sentinel and [dependency_shell_commands] the
    same empty list, with no call made. *)
Theorem empty_chain_is_null_manager `{DependencyMethods}
    name version type requirements kw :
  find_dep [] name version type kw
  = (Returned (NullDependencyManager.find_dep name version type kw), []) ∧
  dependency_shell_commands [] requirements kw
  = (Returned (NullDependencyManager.dependency_shell_commands requirements kw), []).
Proof. split; reflexivity. Qed.

(** ** The calls of an installation *)

Lemma install_all_from_attempts i0 rs requirements :
  ∃ attempts : list (nat * Targets),
    (install_all_from i0 rs requirements).2
    = flat_map (λ a, [EvGetTargets a.1 requirements; EvInstallAll a.1 a.2]) attempts ∧
    Forall (λ a, (i0 ≤ a.1)%nat ∧
                 ∃ r gt, rs !! (a.1 - i0)%nat = Some r ∧
                         get_targets r = Some gt ∧
                         is_Some (install_all_targets r) ∧
                         a.2 = gt requirements) attempts ∧
    StronglySorted lt attempts.*1.
Proof.
  revert i0. induction rs as [|r rs IH]; intros i0.
  { exists []. split_and!; constructor. }
  destruct (IH (S i0)) as (att & Htr & Hatt & Hsorted).
  assert (Hshift : Forall (λ a, (i0 ≤ a.1)%nat ∧
                 ∃ r0 gt, (r :: rs) !! (a.1 - i0)%nat = Some r0 ∧
                         get_targets r0 = Some gt ∧
                         is_Some (install_all_targets r0) ∧
                         a.2 = gt requirements) att).
  { eapply Forall_impl; [exact Hatt|].
    intros a (Hle & r0 & gt & Hl & Hgt & Hinst & Ha). split; [lia|].
    exists r0, gt. split_and!; try done.
    replace (a.1 - i0)%nat with (S (a.1 - S i0)) by lia. done. }
  cbn [install_all_from].
  destruct (get_targets r) as [gt|] eqn:Hgt;
    [destruct (install_all_targets r) as [inst|] eqn:Hinst|];
    [|by exists att..].
  assert (Hhere : (i0 ≤ i0)%nat ∧
            ∃ r0 gt0, (r :: rs) !! (i0 - i0)%nat = Some r0 ∧
                      get_targets r0 = Some gt0 ∧
                      is_Some (install_all_targets r0) ∧
                      gt requirements = gt0 requirements).
  { split; [lia|]. exists r, gt. replace (i0 - i0)%nat with 0%nat by lia.
    split_and!; try done; by rewrite Hinst. }
  cbv zeta. destruct (inst (gt requirements)).
  - exists [(i0, gt requirements)].
    split_and!; [done|constructor; [exact Hhere|constructor]|].
    repeat constructor.
  - destruct (install_all_from (S i0) rs requirements) as [b tr] eqn:Hrec.
    simpl in Htr. exists ((i0, gt requirements) :: att). split_and!.
    + simpl. by rewrite Htr.
    + constructor; [exact Hhere|exact Hshift].
    + simpl. constructor; [done|]. apply Forall_fmap.
      eapply Forall_impl; [exact Hatt|]. intros a [Hle _]. simpl. lia.
Qed.

(** The calls made by [install_all] are pairs: [get_targets], given the
    whole requirement list as received (requirements of unresolvable
    type included), at once followed by [install_all] on what it returned.
    Such a pair only goes to a resolver that has both methods, and the
    resolvers are tried in chain order, each at most once. *)
Theorem install_all_call_discipline rs requirements :
  ∃ attempts : list (nat * Targets),
    (install_all rs requirements).2
    = flat_map (λ a, [EvGetTargets a.1 requirements; EvInstallAll a.1 a.2]) attempts ∧
    Forall (λ a, ∃ r gt, rs !! a.1 = Some r ∧
                         get_targets r = Some gt ∧
                         is_Some (install_all_targets r) ∧
                         a.2 = gt requirements) attempts ∧
    StronglySorted lt attempts.*1.
Proof.
  destruct (install_all_from_attempts 0 rs requirements) as (att & Htr & Hatt & Hs).
  exists att. split_and!; [done| |done].
  eapply Forall_impl; [exact Hatt|]. intros a (_ & r & gt & Hl & H).
  exists r, gt. by replace (a.1 - 0)%nat with a.1 in Hl by lia.
Qed.

(** ** The calls of a cache build *)




(** ** Activation commands *)

(** When [dependency_shell_commands] returns, it gives one command list
    per entry of the mapping, in mapping order and with no cache path
    bound: the entries are for distinct requirements, so there are at most
    as many command lists as resolvable requirements, and a requirement
    that is not resolved contributes nothing rather than an error. *)
Theorem shell_commands_per_resolved_requirement `{DependencyMethods}
    rs requirements kw cmds tr :
  dependency_shell_commands rs requirements kw = (Returned cmds, tr) →
  ∃ m, requirements_to_dependencies rs requirements kw = (Returned m, tr) ∧
       cmds = (λ item, dep_shell_commands item.2 None item.1) <$> m ∧
       NoDup (od_keys m) ∧
       (length cmds ≤ length (resolvable_requirements requirements))%nat.
Proof.
  unfold dependency_shell_commands.
  destruct (requirements_to_dependencies rs requirements kw) as [[m|e0] tr0] eqn:Hres;
    [|done].
  intros [= <- <-]. exists m.
  assert (NoDup (od_keys m)) as Hnd.
  { eapply (walk_keys_NoDup _ _ _ _ []); [apply NoDup_nil_2|exact Hres]. }
  split_and!; [done|done|done|].
  rewrite length_fmap.
  replace (length m) with (length (od_keys m))
    by (unfold od_keys; by rewrite length_fmap).
  apply submseteq_length, NoDup_submseteq; [done|]. intros q Hq.
  pose proof (walk_keys_resolvable _ _ _ _ _ _ Hres) as Hk.
  unfold od_keys in Hq. apply list_elem_of_fmap in Hq as (e & -> & He).
  eapply Forall_forall in Hk; [|exact He]. by destruct Hk.
Qed.

Lemma shell_commands_per_resolved_requirement_witness :
  ∃ m, requirements_to_dependencies [Ex.knows "samtools" true "conda"]
         [Ex.binary; Ex.samtools; Ex.bwa; Ex.samtools] Ex.kwds
       = (Returned m, [ev_resolve 0 Ex.samtools; ev_resolve 0 Ex.bwa]) ∧
       [["source samtools/env.sh"]]
       = (λ item, dep_shell_commands item.2 None item.1) <$> m ∧
       NoDup (od_keys m) ∧
       (length [["source samtools/env.sh"]]
        ≤ length (resolvable_requirements
                    [Ex.binary; Ex.samtools; Ex.bwa; Ex.samtools]))%nat.
Proof.
  apply (shell_commands_per_resolved_requirement
           [Ex.knows "samtools" true "conda"]
           [Ex.binary; Ex.samtools; Ex.bwa; Ex.samtools] Ex.kwds).
  vm_compute. reflexivity.
Defined.

(** The cached [dependency_shell_commands] builds nothing when the cache
    directory exists or pre-caching is off: the file system is left as it
    is and the resolvers are asked once.  An existing directory is bound
    to every cacheable dependency; without a directory no dependency is
    bound and the commands are those of the plain manager. *)
Theorem cached_commands_without_build `{FileSystem FS} `{DependencyMethods}
    cache_dir precache rs requirements kw (fs : FS) resolved tr0 :
  requirements_to_dependencies rs requirements kw = (Returned resolved, tr0) →
  let dir :=
    get_hashed_dependencies_path cache_dir (cacheable_dependencies resolved) in
  path_exists dir fs = true ∨ precache = false →
  cached_dependency_shell_commands cache_dir precache rs requirements kw fs
  = (Returned
       ((λ item,
           dep_shell_commands item.2
             (if dep_cacheable item.2 && path_exists dir fs
              then Some dir else None) item.1) <$> resolved),
     fs, tr0) ∧
  (path_exists dir fs = false →
   (cached_dependency_shell_commands cache_dir precache rs requirements kw fs).1.1
   = (dependency_shell_commands rs requirements kw).1).
Proof.
  intros Hres dir Hor.
  assert (Heq : cached_dependency_shell_commands cache_dir precache rs requirements kw fs
    = (Returned
       ((λ item,
           dep_shell_commands item.2
             (if dep_cacheable item.2 && path_exists dir fs
              then Some dir else None) item.1) <$> resolved),
     fs, tr0)).
  { unfold cached_dependency_shell_commands. rewrite Hres. cbv zeta. fold dir.
    assert (negb (path_exists dir fs) && precache = false) as ->.
    { destruct Hor as [->| ->]; [done|]. by destruct (path_exists dir fs). }
    rewrite app_nil_r. do 3 f_equal. apply list_fmap_ext. intros i [q d] _.
    simpl. by destruct (dep_cacheable d), (path_exists dir fs). }
  split; [done|]. intros Hex. rewrite Heq. unfold dependency_shell_commands.
  rewrite Hres. simpl. f_equal. apply list_fmap_ext. intros i [q d] _.
  simpl. by rewrite Hex, andb_false_r.
Qed.

Lemma cached_commands_without_build_witness :
  cached_dependency_shell_commands "/cache" true [Ex.bulk] [Ex.samtools] Ex.kwds
    ([("/cache/48a96fc3", [])] : DirTable)
  = (Returned [["source /cache/48a96fc3/env.sh"]],
     [("/cache/48a96fc3", [])], [EvResolveAll 0 [Ex.samtools]]).
Proof.
  refine (proj1 (cached_commands_without_build (FS := DirTable) "/cache" true
                   [Ex.bulk] [Ex.samtools] Ex.kwds [("/cache/48a96fc3", [])]
                   _ _ eq_refl (or_introl _))).
  vm_compute. reflexivity.
Defined.

(** Dependencies that are not cacheable are never bound to a cache path:
    whenever the cached [dependency_shell_commands] returns, the plain
    one returns as well, with as many command lists, and the command
    lists of the entries that are not cacheable are the same in both. *)
Theorem non_cacheable_commands_unaffected `{FileSystem FS} `{DependencyMethods}
    cache_dir precache rs requirements kw (fs : FS) cmds fs' tr :
  cached_dependency_shell_commands cache_dir precache rs requirements kw fs
  = (Returned cmds, fs', tr) →
  ∃ resolved tr0 cmds0,
    requirements_to_dependencies rs requirements kw = (Returned resolved, tr0) ∧
    dependency_shell_commands rs requirements kw = (Returned cmds0, tr0) ∧
    length cmds = length cmds0 ∧
    ∀ i item, resolved !! i = Some item → dep_cacheable item.2 = false →
              cmds !! i = cmds0 !! i.
Proof.
  unfold cached_dependency_shell_commands, dependency_shell_commands.
  destruct (requirements_to_dependencies rs requirements kw) as [[m|e0] tr0] eqn:Hres;
    [|done].
  cbv zeta.
  destruct (if negb _ && precache then _ else _) as [[built fs1] tr1].
  destruct built as [[]|e]; [|done]. intros [= <- <- <-].
  eexists m, tr0, _. split_and!; [done|done|by rewrite !length_fmap|].
  intros i [q d] Hi Hc. rewrite !list_lookup_fmap, Hi. simpl in *.
  by rewrite Hc.
Qed.

Lemma non_cacheable_commands_unaffected_witness :
  let chain := [Ex.knows_uncached "bwa"; Ex.knows "samtools" true "conda"] in
  let cmds := [["source bwa/env.sh"]; ["source /cache/48a96fc3/env.sh"]] in
  ∃ resolved tr0 cmds0,
    requirements_to_dependencies chain [Ex.samtools; Ex.bwa] Ex.kwds
    = (Returned resolved, tr0) ∧
    dependency_shell_commands chain [Ex.samtools; Ex.bwa] Ex.kwds
    = (Returned cmds0, tr0) ∧
    length cmds = length cmds0 ∧
    (∀ i item, resolved !! i = Some item → dep_cacheable item.2 = false →
               cmds !! i = cmds0 !! i) ∧
    resolved
    = [(Ex.bwa,
        ResolvedDependency "bwa" (Some "0.7") true "galaxy_package" false "found");
       (Ex.samtools, Ex.conda_dep Ex.samtools)] ∧
    cmds !! 0%nat = cmds0 !! 0%nat.
Proof.
  intros chain cmds.
  assert (cached_dependency_shell_commands (FS := DirTable) "/cache" true
            chain [Ex.samtools; Ex.bwa] Ex.kwds [("/cache/48a96fc3", [])]
          = (Returned cmds, [("/cache/48a96fc3", [])],
             [ev_resolve 0 Ex.samtools; ev_resolve 0 Ex.bwa;
              ev_resolve 1 Ex.samtools])) as Hrun
    by (vm_compute; reflexivity).
  destruct (non_cacheable_commands_unaffected (FS := DirTable) "/cache" true
              chain [Ex.samtools; Ex.bwa] Ex.kwds [("/cache/48a96fc3", [])]
              _ _ _ Hrun)
    as (resolved & tr0 & cmds0 & Hres & Hcmds & Hlen & Hsame).
  exists resolved, tr0, cmds0.
  assert (resolved
          = [(Ex.bwa,
              ResolvedDependency "bwa" (Some "0.7") true "galaxy_package" false
                "found");
             (Ex.samtools, Ex.conda_dep Ex.samtools)]) as Hresolved.
  { vm_compute in Hres. by injection Hres as <- _. }
  split_and!; [exact Hres|exact Hcmds|exact Hlen|exact Hsame|exact Hresolved|].
  apply (Hsame 0%nat
           (Ex.bwa,
            ResolvedDependency "bwa" (Some "0.7") true "galaxy_package" false
              "found")); [by rewrite Hresolved|reflexivity].
Defined.


(** ** The choice of the manager *)

(** [build_dependency_manager] chooses [NullDependencyManager] exactly
    when the attribute [use_tool_dependencies] is absent or false,
    whatever the other attributes are.  When it chooses another manager,
    the cached one is chosen over the plain one by the truth value of the
    attribute [use_cached_dependency_manager]. *)
Theorem manager_choice dec config :
  let enabled :=
    truthy (default (PyBool false)
              (config_attrs config !! "use_tool_dependencies")) in
  (build_dependency_manager dec config = inr NullDependencyManager_new
   ↔ enabled = false) ∧
  (∀ kwds, build_dependency_manager dec config = inr (DependencyManager_new kwds) →
        ∃ c, config_attrs config !! "use_cached_dependency_manager" = Some c
             ∧ truthy c = false) ∧
  (∀ kwds,
     build_dependency_manager dec config = inr (CachedDependencyManager_new kwds) →
        ∃ c, config_attrs config !! "use_cached_dependency_manager" = Some c
             ∧ truthy c = true).
Proof.
  intros enabled. unfold build_dependency_manager. fold enabled.
  destruct enabled eqn:He; [|by split_and!].
  destruct (config_attrs config !! "tool_dependency_dir") eqn:H1;
    [|by split_and!].
  destruct (config_attrs config !! "dependency_resolvers_config_file") eqn:H2;
    [|by split_and!].
  cbv zeta.
  destruct (config_attrs config !! "use_cached_dependency_manager") as [c|] eqn:H3;
    [|by split_and!].
  destruct (truthy c) eqn:Hc.
  - destruct (config_attrs config !! "tool_dependency_cache_dir") eqn:H4;
      [|by split_and!].
    split_and!; try done. intros kwds _. by exists c.
  - split_and!; try done. intros kwds _. by exists c.
Qed.

Lemma extra_kwds_lookup config key (l : list (string * PyValue)) :
  ∀ kwds0 : gmap.gmap string PyValue,
    foldl (λ kwds item, <[item.1 := config_value config item.1 item.2]> kwds)
      kwds0 l !! key
    = match last_binding key l with
      | Some default_value => Some (config_value config key default_value)
      | None => kwds0 !! key
      end.
Proof.
  induction l as [|item l IH]; intros kwds0; [done|].
  cbn [foldl last_binding]. rewrite IH.
  destruct (last_binding key l); [done|].
  rewrite fin_maps.lookup_insert. by repeat case_decide; simplify_eq.
Qed.

Lemma last_binding_key key l v :
  last_binding key l = Some v → key ∈ l.*1.
Proof.
  revert v. induction l as [|item l IH]; intros v; simpl; [done|].
  destruct (last_binding key l) as [v0|].
  - intros _. apply list_elem_of_further. by apply (IH v0).
  - case_decide; [|done]. intros _. subst. apply list_elem_of_here.
Qed.

(** The keyword arguments given to the manager: the base path and the
    configuration file read from the attributes, the cache directory for
    the cached manager only, and every key of [EXTRA_CONFIG_KWDS], each
    with the attribute of that name when the configuration has one (even
    one set to [None]), else with the entry of [config_dict], else with
    its default.  No other keyword is passed. *)
Theorem manager_keyword_arguments dec config kwds :
  build_dependency_manager dec config = inr (DependencyManager_new kwds)
  ∨ build_dependency_manager dec config = inr (CachedDependencyManager_new kwds) →
  (∀ key default_value,
     (key, default_value) ∈ EXTRA_CONFIG_KWDS dec →
     kwds !! key = Some (config_value config key default_value)) ∧
  kwds !! "default_base_path" = config_attrs config !! "tool_dependency_dir" ∧
  kwds !! "conf_file" = config_attrs config !! "dependency_resolvers_config_file" ∧
  (build_dependency_manager dec config = inr (DependencyManager_new kwds) →
   kwds !! "tool_dependency_cache_dir" = None) ∧
  (build_dependency_manager dec config = inr (CachedDependencyManager_new kwds) →
   kwds !! "tool_dependency_cache_dir"
   = config_attrs config !! "tool_dependency_cache_dir") ∧
  (∀ key, is_Some (kwds !! key) →
          key ∈ ["default_base_path"; "conf_file"; "tool_dependency_cache_dir"]
                ++ (EXTRA_CONFIG_KWDS dec).*1).
Proof.
  unfold build_dependency_manager.
  destruct (truthy _); [|by intros [|]].
  destruct (config_attrs config !! "tool_dependency_dir") as [base|] eqn:H1;
    [|by intros [|]].
  destruct (config_attrs config !! "dependency_resolvers_config_file")
    as [conf|] eqn:H2; [|by intros [|]].
  cbv zeta.
  set (kwds0 := <["conf_file" := conf]> (<["default_base_path" := base]> ∅)
                : gmap.gmap string PyValue).
  set (kw := foldl _ kwds0 _).
  assert (Hextra : ∀ key default_value,
            (key, default_value) ∈ EXTRA_CONFIG_KWDS dec →
            last_binding key (EXTRA_CONFIG_KWDS dec) = Some default_value).
  { intros key dv Hin. unfold EXTRA_CONFIG_KWDS in Hin.
    repeat (apply elem_of_cons in Hin as [[= -> ->]|Hin]; [reflexivity|]).
    by apply elem_of_nil in Hin. }
  assert (Hkw : ∀ key, kw !! key
            = match last_binding key (EXTRA_CONFIG_KWDS dec) with
              | Some dv => Some (config_value config key dv)
              | None => kwds0 !! key
              end) by (intros key; apply extra_kwds_lookup).
  assert (Hdom0 : ∀ key, is_Some (kwds0 !! key) →
            key = "default_base_path" ∨ key = "conf_file").
  { intros key. unfold kwds0. rewrite !fin_maps.lookup_insert.
    repeat case_decide; subst; auto. rewrite fin_maps.lookup_empty.
    by intros [? ?]. }
  assert (Hdom : ∀ key, is_Some (kw !! key) →
            key ∈ ["default_base_path"; "conf_file"; "tool_dependency_cache_dir"]
                  ++ (EXTRA_CONFIG_KWDS dec).*1).
  { intros key. rewrite Hkw.
    destruct (last_binding key (EXTRA_CONFIG_KWDS dec)) eqn:Hl.
    - intros _. apply elem_of_app. right. by eapply last_binding_key.
    - intros [->| ->]%Hdom0; apply elem_of_app; left.
      + apply list_elem_of_here.
      + apply list_elem_of_further, list_elem_of_here. }
  assert (Hbase : kw !! "default_base_path" = Some base
                  ∧ kw !! "conf_file" = Some conf
                  ∧ kw !! "tool_dependency_cache_dir" = None).
  { rewrite !Hkw. by split_and!. }
  destruct Hbase as (Hb1 & Hb2 & Hb3).
  destruct (config_attrs config !! "use_cached_dependency_manager") as [c|] eqn:H3;
    [|by intros [|]].
  destruct (truthy c).
  - destruct (config_attrs config !! "tool_dependency_cache_dir") as [cd|] eqn:H4;
      [|by intros [|]].
    intros [[=]|[= <-]].
    split_and!; [| | |done| |].
    + intros key dv Hin. rewrite fin_maps.lookup_insert_ne.
      * rewrite Hkw. by rewrite (Hextra _ _ Hin).
      * intros <-. unfold EXTRA_CONFIG_KWDS in Hin.
        repeat (apply elem_of_cons in Hin as [[=]|Hin]).
        by apply elem_of_nil in Hin.
    + by rewrite fin_maps.lookup_insert_ne.
    + by rewrite fin_maps.lookup_insert_ne.
    + intros _. by rewrite fin_maps.lookup_insert_eq.
    + intros key. rewrite fin_maps.lookup_insert. case_decide; [|apply Hdom].
      subst. intros _. apply elem_of_app. left.
      do 2 apply list_elem_of_further. apply list_elem_of_here.
  - intros [[= <-]|[=]].
    split_and!; [|done|done|done|done|done].
    intros key dv Hin. rewrite Hkw. by rewrite (Hextra _ _ Hin).
Qed.

Lemma manager_keyword_arguments_witness :
  ∃ kwds,
    build_dependency_manager (PyStr "iuc") example_config
    = inr (DependencyManager_new kwds) ∧
    kwds !! "conda_prefix" = Some PyNone ∧
    kwds !! "conda_debug" = Some (PyBool true) ∧
    kwds !! "precache_dependencies" = Some (PyBool true).
Proof.
  destruct (build_dependency_manager (PyStr "iuc") example_config)
    as [e|[|kwds|kwds]] eqn:Hb; try (vm_compute in Hb; discriminate Hb).
  exists kwds. split; [reflexivity|].
  destruct (manager_keyword_arguments (PyStr "iuc") example_config kwds
              (or_introl Hb)) as (Hextra & _).
  split_and!.
  - rewrite (Hextra "conda_prefix" PyNone); [reflexivity|].
    apply list_elem_of_here.
  - rewrite (Hextra "conda_debug" PyNone); [reflexivity|].
    do 2 apply list_elem_of_further. apply list_elem_of_here.
  - rewrite (Hextra "precache_dependencies" (PyBool true)); [reflexivity|].
    do 7 apply list_elem_of_further. apply list_elem_of_here.
Defined.

Lemma manager_choice_witness :
  build_dependency_manager (PyStr "iuc") (mkConfig ∅ None)
  = inr NullDependencyManager_new ∧
  (∃ kwds, build_dependency_manager (PyStr "iuc") example_config
           = inr (DependencyManager_new kwds)) ∧
  (∃ c, config_attrs example_config !! "use_cached_dependency_manager" = Some c
        ∧ truthy c = false) ∧
  (∃ kwds, build_dependency_manager (PyStr "iuc") example_cached_config
           = inr (CachedDependencyManager_new kwds)) ∧
  (∃ c, config_attrs example_cached_config !! "use_cached_dependency_manager"
        = Some c ∧ truthy c = true).
Proof.
  split; [by apply manager_choice|].
  destruct (build_dependency_manager (PyStr "iuc") example_config)
    as [e|[|kwds|kwds]] eqn:Hplain; try (vm_compute in Hplain; discriminate Hplain).
  destruct (build_dependency_manager (PyStr "iuc") example_cached_config)
    as [e|[|ckwds|ckwds]] eqn:Hcached;
    try (vm_compute in Hcached; discriminate Hcached).
  split_and!.
  - by exists kwds.
  - exact (proj1 (proj2 (manager_choice (PyStr "iuc") example_config)) kwds Hplain).
  - by exists ckwds.
  - exact (proj2 (proj2 (manager_choice (PyStr "iuc") example_cached_config))
             ckwds Hcached).
Defined.
